(** * OIDC authorization-code login glue and the cross-window session lock

  Part one embeds [src/utils/oidc/authorize.ts]: the parameters of a
  login are kept in [window.sessionStorage] under keys derived from the
  [state] value and read back when the identity provider redirects to the
  application.

  JavaScript values are embedded with their run-time behaviour
  ([typeof], truthiness); TypeScript types are erased, as they are when
  the code runs.  The session storage is a finite map from strings to
  strings, threaded through a small state-and-exception monad.

  Part two is the session lock of [src/utils/SessionLock.ts].  Its
  implementation is not among the sources; the coordinator is modelled
  from the specification as timed actors over a shared store, and is run
  on the scenarios of [test/utils/SessionLock-test.ts]. *)

From Stdlib Require Import ZArith Lia List Bool Ascii.
From Stdlib Require Import Floats.SpecFloat.
From stdpp Require Import gmap strings list fin_maps.

Set Warnings "-register-all".

(** ** JavaScript run-time values *)

Module Js.

(** A number is an IEEE-754 binary64 datum; only its classification is
    ever inspected here. *)
Definition number := spec_float.

Inductive value :=
| JsUndefined
| JsNull
| JsBoolean (b : bool)
| JsNumber (x : number)
| JsString (s : string)
| JsArray (xs : list value)
| JsObject (props : gmap string value).

(** [typeof v] *)
Definition typeof (v : value) : string :=
  match v with
  | JsUndefined => "undefined"
  | JsNull => "object"
  | JsBoolean _ => "boolean"
  | JsNumber _ => "number"
  | JsString _ => "string"
  | JsArray _ => "object"
  | JsObject _ => "object"
  end.

(** ToBoolean: what [!!v], [v && ...] and [v ? ... : ...] test. *)
Definition truthy (v : value) : bool :=
  match v with
  | JsUndefined | JsNull => false
  | JsBoolean b => b
  | JsNumber (S754_zero _) | JsNumber S754_nan => false
  | JsNumber _ => true
  | JsString s => negb (String.eqb s "")
  | JsArray _ | JsObject _ => true
  end.

(** Property read [o[k]] on a plain object: a missing property reads as
    [undefined]. *)
Definition get (o : gmap string value) (k : string) : value :=
  default JsUndefined (o !! k).

(** A [string | null] result, such as the one of [Storage.getItem]. *)
Definition of_nullable (o : option string) : value :=
  match o with
  | Some s => JsString s
  | None => JsNull
  end.

(** [x ?? undefined] on a [string | null]. *)
Definition nullish_to_undefined (o : option string) : value :=
  match o with
  | Some s => JsString s
  | None => JsUndefined
  end.

(** The value is a string with at least one character. *)
Definition nonempty_string (v : value) : Prop :=
  exists s, v = JsString s /\ s <> "".

End Js.

(** ** [utils/oidc/authorize.ts] *)

Module Oidc.
Import Js.

(** The members of [OidcClientError] (module [./error]) thrown here. *)
Inductive OidcClientError :=
| InvalidQueryParameters
| StoredParamsNotFound.

(** What a call can throw: [new Error(OidcClientError.e)], the
    [SyntaxError] of [JSON.parse], or the rejection of the external
    authorization-code exchange, kept by its message. *)
Inductive exn :=
| OidcError (e : OidcClientError)
| SyntaxError
| GrantError (msg : string).

Inductive outcome (A : Type) :=
| Return (a : A)
| Throw (e : exn).
Arguments Return {A} a.
Arguments Throw {A} e.

(** [window.sessionStorage]: string keys, string values. *)
Abbreviation Storage := (gmap string string).

(** Computations that read and write the session storage and may throw.
    A throw keeps the writes made before it. *)
Definition M (A : Type) : Type := Storage -> outcome A * Storage.

Definition ret {A} (a : A) : M A := fun st => (Return a, st).

Definition throw {A} (e : exn) : M A := fun st => (Throw e, st).

Definition bind {A B} (m : M A) (k : A -> M B) : M B :=
  fun st =>
    match m st with
    | (Return a, st') => k a st'
    | (Throw e, st') => (Throw e, st')
    end.

Definition lift {A} (o : outcome A) : M A := fun st => (o, st).

Notation "'let*' x ':=' m 'in' k" := (bind m (fun x => k))
  (at level 10, x name, m at level 100, k at level 200).
Notation "m ';;' k" := (bind m (fun _ => k))
  (at level 100, k at level 200, right associativity).

(** [window.sessionStorage.getItem(k)]: the value or [null]. *)
Definition getItem (k : string) : M (option string) :=
  fun st => (Return (st !! k), st).

(** [window.sessionStorage.setItem(k, v)] *)
Definition setItem (k v : string) : M unit :=
  fun st => (Return tt, <[k := v]> st).

(** The template literal [`oidc_${state}_<name>`]. *)
Definition storage_key (state name : string) : string :=
  "oidc_" +:+ state +:+ "_" +:+ name.

(** [AuthorizationParams] of the SDK, with the fields its name list in
    [StoredAuthorizationParams] shows. *)
Record AuthorizationParams := {
  scope : string;
  redirectUri : string;
  state : string;
  nonce : string;
  codeVerifier : string;
}.

(** The token response of the exchange; the code reads [access_token]. *)
Record BearerTokenResponse := {
  access_token : string;
}.

(** What the file takes from the platform and from the SDK.
    - [JSON_parse] is [None] where [JSON.parse] throws its [SyntaxError];
    - [JSON_stringify] is applied to a configuration object only;
    - [completeAuthorizationCodeGrant] rejects ([inl], with the message)
      or resolves with the token response; it takes the code and the
      stored parameters and has no access to the session storage;
    - [generateAuthorizationParams] stands for one draw of the SDK's
      generator of [state], [nonce] and [codeVerifier];
    - [generateAuthorizationUrl] builds the URL to navigate to. *)
Class Builtins := {
  JSON_parse : string -> option value;
  JSON_stringify : value -> string;
  completeAuthorizationCodeGrant :
    string -> gmap string value -> string + BearerTokenResponse;
  generateAuthorizationParams : string -> AuthorizationParams;
  generateAuthorizationUrl : value -> string -> AuthorizationParams -> string;
}.

Section Authorize.
Context {builtins : Builtins}.

(** [storeAuthorizationParams]: [delegatedAuthConfig] is an object,
    [identityServerUrl] an optional string. *)
Definition storeAuthorizationParams
    (authorizationParams : AuthorizationParams)
    (delegatedAuthConfig : gmap string value)
    (clientId homeserverUrl : string)
    (identityServerUrl : option string) : M unit :=
  let st := state authorizationParams in
  setItem (storage_key st "nonce") (nonce authorizationParams) ;;
  setItem (storage_key st "redirectUri") (redirectUri authorizationParams) ;;
  setItem (storage_key st "codeVerifier") (codeVerifier authorizationParams) ;;
  setItem (storage_key st "clientId") clientId ;;
  setItem (storage_key st "delegatedAuthConfig")
          (JSON_stringify (JsObject delegatedAuthConfig)) ;;
  setItem (storage_key st "homeserverUrl") homeserverUrl ;;
  match identityServerUrl with
  | Some url =>
      if truthy (JsString url)
      then setItem (storage_key st "identityServerUrl") url
      else ret tt
  | None => ret tt
  end.

Definition requiredStringProperties : list string :=
  ["nonce"; "redirectUri"; "codeVerifier"; "clientId"; "homeserverUrl"].

(** [validateStoredAuthorizationParams]: the object is returned as it
    came (the cast has no run-time effect) or the named error is thrown. *)
Definition validateStoredAuthorizationParams
    (params : gmap string value) : outcome (gmap string value) :=
  if forallb (fun key => truthy (get params key)
                         && String.eqb (typeof (get params key)) "string")
             requiredStringProperties
     && (match get params "identityServerUrl" with
         | JsUndefined => true
         | v => String.eqb (typeof v) "string"
         end)
     && truthy (get params "delegatedAuthConfig")
  then Return params
  else Throw (OidcError StoredParamsNotFound).

(** [delegatedAuthConfig ? JSON.parse(delegatedAuthConfig) : undefined] *)
Definition parseDelegatedAuthConfig (stored : option string) : outcome value :=
  if truthy (of_nullable stored)
  then match JSON_parse (default "" stored) with
       | Some v => Return v
       | None => Throw SyntaxError
       end
  else Return JsUndefined.

(** [retrieveAuthorizationParams] *)
Definition retrieveAuthorizationParams (state : string) : M (gmap string value) :=
  let* nonce := getItem (storage_key state "nonce") in
  let* redirectUri := getItem (storage_key state "redirectUri") in
  let* codeVerifier := getItem (storage_key state "codeVerifier") in
  let* clientId := getItem (storage_key state "clientId") in
  let* homeserverUrl := getItem (storage_key state "homeserverUrl") in
  let* identityServerUrl := getItem (storage_key state "identityServerUrl") in
  let* delegatedAuthConfig := getItem (storage_key state "delegatedAuthConfig") in
  let* parsed := lift (parseDelegatedAuthConfig delegatedAuthConfig) in
  lift (validateStoredAuthorizationParams
          (<["nonce" := of_nullable nonce]>
           (<["redirectUri" := of_nullable redirectUri]>
            (<["codeVerifier" := of_nullable codeVerifier]>
             (<["clientId" := of_nullable clientId]>
              (<["homeserverUrl" := of_nullable homeserverUrl]>
               (<["identityServerUrl" := nullish_to_undefined identityServerUrl]>
                (<["delegatedAuthConfig" := parsed]> ∅)))))))).

(** [startOidcLogin]; [origin] is [window.location.origin] and the result
    is the URL assigned to [window.location.href]. *)
Definition startOidcLogin
    (origin : string)
    (delegatedAuthConfig : gmap string value)
    (clientId homeserverUrl : string)
    (identityServerUrl : option string) : M string :=
  let redirectUri := origin in
  let authParams := generateAuthorizationParams redirectUri in
  storeAuthorizationParams authParams delegatedAuthConfig clientId
                           homeserverUrl identityServerUrl ;;
  let authorizationUrl :=
    generateAuthorizationUrl (get delegatedAuthConfig "authorizationEndpoint")
                             clientId authParams in
  ret authorizationUrl.

(** After the guard of [getCodeAndStateFromQueryParams] the two values
    are strings; this reads the string out of a value. *)
Definition as_string (v : value) : string :=
  match v with
  | JsString s => s
  | _ => ""
  end.

(** [getCodeAndStateFromQueryParams]: the pair is [(code, state)]. *)
Definition getCodeAndStateFromQueryParams
    (queryParams : gmap string value) : outcome (string * string) :=
  let code := get queryParams "code" in
  let state := get queryParams "state" in
  if negb (truthy code) || negb (String.eqb (typeof code) "string")
     || negb (truthy state) || negb (String.eqb (typeof state) "string")
  then Throw (OidcError InvalidQueryParameters)
  else Return (as_string code, as_string state).

(** The object [completeOidcLogin] resolves with. *)
Record LoginResult := {
  res_homeserverUrl : value;
  res_identityServerUrl : value;
  res_accessToken : string;
}.

(** [await completeAuthorizationCodeGrant(code, params)] *)
Definition awaitGrant (code : string) (params : gmap string value)
  : outcome BearerTokenResponse :=
  match completeAuthorizationCodeGrant code params with
  | inl msg => Throw (GrantError msg)
  | inr response => Return response
  end.

(** [completeOidcLogin] *)
Definition completeOidcLogin (queryParams : gmap string value) : M LoginResult :=
  let* codeAndState := lift (getCodeAndStateFromQueryParams queryParams) in
  let '(code, state) := codeAndState in
  let* storedAuthorizationParams := retrieveAuthorizationParams state in
  let* bearerTokenResponse :=
    lift (awaitGrant code storedAuthorizationParams) in
  ret {| res_homeserverUrl := get storedAuthorizationParams "homeserverUrl";
         res_identityServerUrl := get storedAuthorizationParams "identityServerUrl";
         res_accessToken := access_token bearerTokenResponse |}.

End Authorize.
End Oidc.

(** ** A reference for the flat fragment of JSON

    Closed examples need the platform's [JSON.parse] and [JSON.stringify]
    at concrete texts.  This reference covers the fragment the stored
    configuration lives in: the literals [null], [true], [false], strings
    without escapes, and objects whose members are such atoms, with
    optional blanks between tokens.  Everything proved for all [Builtins]
    is independent of it. *)

Module RefJson.
Import Js.

Definition dquote : Ascii.ascii := "034"%char.
Definition backslash : Ascii.ascii := "092"%char.

Definition is_blank (c : Ascii.ascii) : bool :=
  match Ascii.nat_of_ascii c with
  | 32 | 9 | 10 | 13 => true
  | _ => false
  end.

Fixpoint skip_blanks (s : string) : string :=
  match s with
  | String c r => if is_blank c then skip_blanks r else s
  | EmptyString => s
  end.

(** The characters of a string literal after its opening quote, up to the
    closing quote; [None] on an unterminated literal, an escape or a
    control character. *)
Fixpoint parse_chars (s : string) : option (string * string) :=
  match s with
  | EmptyString => None
  | String c r =>
      if Ascii.eqb c dquote then Some (EmptyString, r)
      else if Ascii.eqb c backslash || (Ascii.nat_of_ascii c <? 32)%nat then None
      else match parse_chars r with
           | Some (body, rest) => Some (String c body, rest)
           | None => None
           end
  end.

(** [strip_prefix p s] is what follows [p] in [s]. *)
Fixpoint strip_prefix (p s : string) : option string :=
  match p, s with
  | EmptyString, _ => Some s
  | String a p', String b s' => if Ascii.eqb a b then strip_prefix p' s' else None
  | String _ _, EmptyString => None
  end.

Definition parse_atom (s : string) : option (value * string) :=
  match s with
  | String c r =>
      if Ascii.eqb c dquote then
        match parse_chars r with
        | Some (body, rest) => Some (JsString body, rest)
        | None => None
        end
      else match strip_prefix "null" s, strip_prefix "true" s, strip_prefix "false" s with
           | Some rest, _, _ => Some (JsNull, rest)
           | _, Some rest, _ => Some (JsBoolean true, rest)
           | _, _, Some rest => Some (JsBoolean false, rest)
           | _, _, _ => None
           end
  | EmptyString => None
  end.

(** One member [ "key" : atom ]. *)
Definition parse_member (s : string) : option (string * value * string) :=
  match skip_blanks s with
  | String c r =>
      if Ascii.eqb c dquote then
        match parse_chars r with
        | Some (key, rest) =>
            match skip_blanks rest with
            | String ":" rest' =>
                match parse_atom (skip_blanks rest') with
                | Some (v, rest'') => Some (key, v, rest'')
                | None => None
                end
            | _ => None
            end
        | None => None
        end
      else None
  | EmptyString => None
  end.

(** The members after the first, up to the closing brace; a later member
    with the same key replaces the earlier one. *)
Fixpoint parse_more_members (fuel : nat) (acc : gmap string value) (s : string)
  : option (gmap string value * string) :=
  match fuel with
  | O => None
  | S fuel' =>
      match skip_blanks s with
      | String "}" rest => Some (acc, rest)
      | String "," rest =>
          match parse_member rest with
          | Some (k, v, rest') => parse_more_members fuel' (<[k := v]> acc) rest'
          | None => None
          end
      | _ => None
      end
  end.

Definition parse_value (s : string) : option (value * string) :=
  match skip_blanks s with
  | String "{" r =>
      match skip_blanks r with
      | String "}" rest => Some (JsObject ∅, rest)
      | _ =>
          match parse_member r with
          | Some (k, v, rest) =>
              match parse_more_members (String.length rest) {[k := v]} rest with
              | Some (m, rest') => Some (JsObject m, rest')
              | None => None
              end
          | None => None
          end
      end
  | s' => parse_atom s'
  end.

(** A text is accepted when one value and only blanks are read. *)
Definition parse (s : string) : option value :=
  match parse_value s with
  | Some (v, rest) =>
      match skip_blanks rest with
      | EmptyString => Some v
      | _ => None
      end
  | None => None
  end.

Definition quote (s : string) : string :=
  String dquote (s +:+ String dquote EmptyString).

Definition stringify_atom (v : value) : string :=
  match v with
  | JsString s => quote s
  | JsBoolean true => "true"
  | JsBoolean false => "false"
  | _ => "null"
  end.

Definition stringify_member (kv : string * value) : string :=
  quote kv.1 +:+ ":" +:+ stringify_atom kv.2.

Fixpoint join_members (l : list (string * value)) : string :=
  match l with
  | [] => ""
  | [kv] => stringify_member kv
  | kv :: l' => stringify_member kv +:+ "," +:+ join_members l'
  end.

Definition stringify (v : value) : string :=
  match v with
  | JsObject m => "{" +:+ join_members (map_to_list m) +:+ "}"
  | _ => stringify_atom v
  end.

(** The reference builtins: the exchange answers every code with the
    token ["token-for-" ++ code]; the generator and the URL builder are
    fixed. *)
#[export] Instance reference : Oidc.Builtins := {|
  Oidc.JSON_parse := parse;
  Oidc.JSON_stringify := stringify;
  Oidc.completeAuthorizationCodeGrant := fun code _ =>
    inr {| Oidc.access_token := "token-for-" +:+ code |};
  Oidc.generateAuthorizationParams := fun redirectUri =>
    {| Oidc.scope := "openid"; Oidc.redirectUri := redirectUri;
       Oidc.state := "st4te"; Oidc.nonce := "n0nce";
       Oidc.codeVerifier := "verifier" |};
  Oidc.generateAuthorizationUrl := fun endpoint clientId params =>
    Oidc.as_string endpoint +:+ "?client_id=" +:+ clientId
      +:+ "&state=" +:+ Oidc.state params;
|}.

End RefJson.


(** ** Vocabulary of the statements about the login glue *)

Module OidcSpec.
Import Js Oidc.

(** The entry of the session storage for a state and a parameter name. *)
Definition stored (st : gmap string string) (state name : string) : option string :=
  st !! storage_key state name.

(** A storage entry that is absent or holds the empty string. *)
Definition missing_or_empty (o : option string) : Prop :=
  o = None \/ o = Some "".

(** A query-parameter entry that is absent, empty, or not a string. *)
Definition absent_empty_or_not_string (q : gmap string value) (k : string) : Prop :=
  q !! k = None \/ q !! k = Some (JsString "")
  \/ exists v, q !! k = Some v /\ typeof v <> "string".

(** The stored configuration text is one [JSON.parse] is called on and
    rejects. *)
Definition malformed_config `{Builtins} (o : option string) : Prop :=
  exists text, o = Some text /\ text <> "" /\ JSON_parse text = None.

(** The stored configuration text parses to a falsy value. *)
Definition falsy_config `{Builtins} (o : option string) : Prop :=
  exists text v, o = Some text /\ text <> "" /\ JSON_parse text = Some v
                 /\ truthy v = false.

(** The object read back for a state when the configuration parsed to
    [parsed]. *)
Definition stored_params_object (st : gmap string string) (state : string)
    (parsed : value) : gmap string value :=
  <["nonce" := of_nullable (stored st state "nonce")]>
  (<["redirectUri" := of_nullable (stored st state "redirectUri")]>
   (<["codeVerifier" := of_nullable (stored st state "codeVerifier")]>
    (<["clientId" := of_nullable (stored st state "clientId")]>
     (<["homeserverUrl" := of_nullable (stored st state "homeserverUrl")]>
      (<["identityServerUrl" :=
           nullish_to_undefined (stored st state "identityServerUrl")]>
       (<["delegatedAuthConfig" := parsed]> ∅)))))).

(** The session storage after [storeAuthorizationParams]. *)
Definition storage_after_store `{Builtins} (ap : AuthorizationParams)
    (cfg : gmap string value) (clientId homeserverUrl : string)
    (identityServerUrl : option string) (st : gmap string string)
  : gmap string string :=
  let base :=
    <[storage_key (state ap) "homeserverUrl" := homeserverUrl]>
    (<[storage_key (state ap) "delegatedAuthConfig" := JSON_stringify (JsObject cfg)]>
     (<[storage_key (state ap) "clientId" := clientId]>
      (<[storage_key (state ap) "codeVerifier" := codeVerifier ap]>
       (<[storage_key (state ap) "redirectUri" := redirectUri ap]>
        (<[storage_key (state ap) "nonce" := nonce ap]> st))))) in
  match identityServerUrl with
  | Some url =>
      if String.eqb url "" then base
      else <[storage_key (state ap) "identityServerUrl" := url]> base
  | None => base
  end.

(** A sample configuration object and a storage holding one login. *)
Definition sample_config : gmap string value :=
  <["issuer" := JsString "https://op.example/"]>
  (<["authorizationEndpoint" := JsString "https://op.example/auth"]> ∅).

Definition sample_params : AuthorizationParams :=
  {| scope := "openid"; redirectUri := "https://app.example";
     state := "s1"; nonce := "n1"; codeVerifier := "v1" |}.

Definition sample_storage : gmap string string :=
  (storeAuthorizationParams (builtins := RefJson.reference)
     sample_params sample_config
     "client" "https://hs.example" (Some "https://is.example") ∅).2.

(** A storage whose configuration entry for state [s1] is not JSON. *)
Definition malformed_storage : gmap string string :=
  <[storage_key "s1" "nonce" := ""]>
  ({[storage_key "s1" "delegatedAuthConfig" := "{"]}).

(** A storage that already holds an identity-server entry for state [s1]. *)
Definition leftover_storage : gmap string string :=
  {[storage_key "s1" "identityServerUrl" := "https://old.example"]}.

Definition sample_query : gmap string value :=
  <["code" := JsString "c0de"]> (<["state" := JsString "s1"]> ∅).

End OidcSpec.

(** ** What a login leaves in session storage *)

Module OidcFrame.
Import Js Oidc OidcSpec.

(** The names under which a login is kept: the property names of
    [StoredAuthorizationParams], the suffixes of the keys written by
    [storeAuthorizationParams] and read by [retrieveAuthorizationParams]. *)
Definition parameter_names : list string :=
  ["nonce"; "redirectUri"; "codeVerifier"; "clientId"; "delegatedAuthConfig";
   "homeserverUrl"; "identityServerUrl"].

(** The string has no underscore. *)
Fixpoint no_underscore (s : string) : bool :=
  match s with
  | EmptyString => true
  | String c r => negb (Ascii.eqb c "_") && no_underscore r
  end.

(** The keys [storeAuthorizationParams] passes to [setItem]: six always,
    the identity-server key when [identityServerUrl] is truthy. *)
Definition written_keys (state : string) (identityServerUrl : option string)
  : list string :=
  map (storage_key state)
      (["nonce"; "redirectUri"; "codeVerifier"; "clientId";
        "delegatedAuthConfig"; "homeserverUrl"]
       ++ match identityServerUrl with
          | Some url => if truthy (JsString url) then ["identityServerUrl"] else []
          | None => []
          end).

(** Two storages hold the same entries for a state. *)
Definition same_entries (state : string) (st1 st2 : gmap string string) : Prop :=
  Forall (fun name => stored st1 state name = stored st2 state name)
         parameter_names.

(** The storage holds no entry for a state. *)
Definition no_entries (state : string) (st : gmap string string) : Prop :=
  Forall (fun name => stored st state name = None) parameter_names.

(** The storage with the identity-server entry of a state set or removed. *)
Definition with_identity (state : string) (o : option string)
    (st : gmap string string) : gmap string string :=
  match o with
  | Some url => <[storage_key state "identityServerUrl" := url]> st
  | None => delete (storage_key state "identityServerUrl") st
  end.


(** A query with two parameters the provider adds to [code] and [state]. *)
Definition noisy_query : gmap string value :=
  <["session_state" := JsString "x"]> (<["iss" := JsString "https://op.example/"]> sample_query).

End OidcFrame.

(** ** The cross-instance session lock

    The implementation ([src/utils/SessionLock.ts]) is not part of the
    sources at hand; its test ([test/utils/SessionLock-test.ts]) and the
    specification are.  The coordinator below is therefore modelled from
    the specification, section by section, and checked against the five
    scenarios of the test.

    Instances are actors over a shared store.  Time is counted in the
    specification's time units.  A run is a list of events; every event is
    one atomic turn of one instance (or one unit of time passing), so that
    all interleavings of the instances are runs.  An event that is not
    enabled leaves the world as it is. *)

Module SessionLock.

(** Modelled from the spec: the staleness bound of section 3. *)
Definition STALE_TIMEOUT : nat := 30.

(** Modelled from the spec: the refresh period of section 3. *)
Definition HEARTBEAT_INTERVAL : nat := 5.

(** Modelled from the spec: the unique id an instance draws when it starts. *)
Abbreviation InstanceId := nat.

(** Modelled from the spec: [LockRecord {holderId, lastHeartbeat}]. *)
Record LockRecord := {
  holderId : InstanceId;
  lastHeartbeat : nat;
}.

(** Modelled from the spec: [RequestRecord {requesterId, requestedAt}]. *)
Record RequestRecord := {
  requesterId : InstanceId;
  requestedAt : nat;
}.

(** Modelled from the spec: the Shared Store, holding at most one record
    of each kind; an absent or malformed record reads as [None]. *)
Record Store := {
  lockRecord : option LockRecord;
  requestRecord : option RequestRecord;
}.

(** Modelled from the spec: the states of section 4.3.  [IDLE] is an
    instance that has not called [acquire]; [REQUESTING] (slot seen empty,
    request not yet written) and [CONFIRMING] (request written, re-read
    pending) are the two halves of the step from [IDLE] to [WAITING];
    [RELEASED] is the terminal state after a release. *)
Inductive Phase :=
| REQUESTING
| CONFIRMING
| WAITING
| CLAIMING
| HOLDING
| RELEASING
| BACKED_OFF
| RELEASED.

(** Modelled from the spec: what one instance keeps.  [cleanup] is the
    time its [onSuperseded] takes; [timer] is the next firing of the timer
    of its phase (Heartbeat Timer when [HOLDING] or [RELEASING], Watchdog
    Timer when [WAITING]); [inbox] tells that the Notifier has a change to
    deliver; [resolved] is the result of [acquire] with the time it
    resolved; [superseded] is the time [onSuperseded] was invoked, which
    completes [cleanup] later. *)
Record Instance := {
  phase : Phase;
  alive : bool;
  cleanup : nat;
  timer : nat;
  inbox : bool;
  resolved : option (bool * nat);
  superseded : option nat;
}.

(** Modelled from the spec: a LockRecord that is absent, or whose
    heartbeat is [STALE_TIMEOUT] old, is vacant.  The comparison is
    inclusive, where section 4.1 step 3 writes [>]: the repository's test
    and the spec's scenario C obtain the lock exactly [STALE_TIMEOUT]
    after the last heartbeat. *)
Definition lock_vacant (t : nat) (st : Store) : bool :=
  match lockRecord st with
  | None => true
  | Some l => STALE_TIMEOUT <=? t - lastHeartbeat l
  end.

(** Modelled from the spec: a non-stale RequestRecord of another
    requester.  The spec names one staleness bound; it is used here too. *)
Definition foreign_request (t : nat) (self : InstanceId) (st : Store) : bool :=
  match requestRecord st with
  | Some r => negb (requesterId r =? self) && (t - requestedAt r <? STALE_TIMEOUT)
  | None => false
  end.

(** Modelled from the spec: the instance in phase [p]. *)
Definition set_phase (p : Phase) (inst : Instance) : Instance :=
  {| phase := p; alive := alive inst; cleanup := cleanup inst;
     timer := timer inst; inbox := inbox inst;
     resolved := resolved inst; superseded := superseded inst |}.

(** Modelled from the spec: the instance with its timer set to fire at [t]. *)
Definition set_timer (t : nat) (inst : Instance) : Instance :=
  {| phase := phase inst; alive := alive inst; cleanup := cleanup inst;
     timer := t; inbox := inbox inst;
     resolved := resolved inst; superseded := superseded inst |}.

(** Modelled from the spec: the instance with or without a pending
    delivery of the Notifier. *)
Definition set_inbox (b : bool) (inst : Instance) : Instance :=
  {| phase := phase inst; alive := alive inst; cleanup := cleanup inst;
     timer := timer inst; inbox := b;
     resolved := resolved inst; superseded := superseded inst |}.

(** Modelled from the spec: the instance running or gone. *)
Definition set_alive (b : bool) (inst : Instance) : Instance :=
  {| phase := phase inst; alive := b; cleanup := cleanup inst;
     timer := timer inst; inbox := inbox inst;
     resolved := resolved inst; superseded := superseded inst |}.

(** Modelled from the spec: the instance whose [acquire] resolved with
    [b] at [t]. *)
Definition resolve (b : bool) (t : nat) (inst : Instance) : Instance :=
  {| phase := phase inst; alive := alive inst; cleanup := cleanup inst;
     timer := timer inst; inbox := inbox inst;
     resolved := Some (b, t); superseded := superseded inst |}.

(** Modelled from the spec: the instance whose [onSuperseded] was
    invoked at [t]. *)
Definition set_superseded (t : nat) (inst : Instance) : Instance :=
  {| phase := phase inst; alive := alive inst; cleanup := cleanup inst;
     timer := timer inst; inbox := inbox inst;
     resolved := resolved inst; superseded := Some t |}.

(** Modelled from the spec: a write (or removal) of the LockRecord. *)
Definition write_lock (l : option LockRecord) (st : Store) : Store :=
  {| lockRecord := l; requestRecord := requestRecord st |}.

(** Modelled from the spec: a write (or removal) of the RequestRecord. *)
Definition write_request (r : option RequestRecord) (st : Store) : Store :=
  {| lockRecord := lockRecord st; requestRecord := r |}.

(** Modelled from the spec: what can make an instance take a turn: the
    continuation after a short delay, a delivery of the Notifier, the
    timer of its phase, the shutdown signal, or a crash. *)
Inductive Trigger :=
| OnAct
| OnNotify
| OnFire
| OnShutdown
| OnCrash.

Section Coordinator.

(** Modelled from the spec: the coordinator, for a Watchdog Timer that
    polls every [poll] time units.  Section 4.1 step 3 has the Watchdog
    poll at a fixed interval and gives the interval no value; the
    coordinator is defined, and its properties are proved, for every
    interval.  [WATCHDOG_INTERVAL] below is the one the scenarios of the
    test are run with. *)
Variable poll : nat.

(** Modelled from the spec: back-off, the terminal state that resolves
    [acquire] with [false]. *)
Definition back_off (t : nat) (inst : Instance) : Instance :=
  resolve false t (set_phase BACKED_OFF inst).

(** Modelled from the spec: section 4.1 step 1, the write of
    [LockRecord{holderId=self, lastHeartbeat=now}]; the re-read follows in
    a later turn.  The third component tells that the store was written. *)
Definition claim (t : nat) (self : InstanceId) (st : Store) (inst : Instance)
  : Instance * Store * bool :=
  (set_phase CLAIMING inst,
   write_lock (Some {| holderId := self; lastHeartbeat := t |}) st,
   true).

(** Modelled from the spec: section 4.1 steps 1 and 2 up to the first
    write.  A vacant lock is claimed; with a fresh LockRecord, a
    RequestRecord of a different requester makes the instance resolve
    [false] at once, and otherwise the instance goes on to register its
    request. *)
Definition enter (t : nat) (self : InstanceId) (st : Store) (inst : Instance)
  : Instance * Store * bool :=
  if lock_vacant t st then claim t self st inst
  else if foreign_request t self st then (back_off t inst, st, false)
  else (set_phase REQUESTING inst, st, false).

(** Modelled from the spec: what a waiting instance does when it looks at
    the store, on a Notifier event or a Watchdog poll (sections 4.1 step 3
    and 4.3): a non-stale request of another requester makes it back off;
    otherwise a vacant lock is claimed; otherwise it keeps waiting. *)
Definition observe (t : nat) (self : InstanceId) (st : Store) (inst : Instance)
  : Instance * Store * bool :=
  if foreign_request t self st then (back_off t inst, st, false)
  else if lock_vacant t st then claim t self st inst
  else (inst, st, false).

(** Modelled from the spec: "become holder" with section 4.1 step 4: the
    Heartbeat Timer starts, the own RequestRecord is cleared, [acquire]
    resolves [true]. *)
Definition become_holder (t : nat) (self : InstanceId) (st : Store) (inst : Instance)
  : Instance * Store * bool :=
  (resolve true t (set_timer (t + HEARTBEAT_INTERVAL) (set_phase HOLDING inst)),
   match requestRecord st with
   | Some r => if requesterId r =? self then write_request None st else st
   | None => st
   end,
   true).

(** Modelled from the spec: the continuations after a short delay.
    [REQUESTING]: write the RequestRecord (section 4.1 step 2).
    [CONFIRMING]: the re-read of section 4.3; a foreign id makes the
    instance back off, otherwise it waits and the Watchdog Timer starts.
    [CLAIMING]: the re-read of section 4.1 step 1; the claim succeeded if
    the stored holder is still the instance, and is lost otherwise. *)
Definition react_act (t : nat) (self : InstanceId) (st : Store) (inst : Instance)
  : Instance * Store * bool :=
  match phase inst with
  | REQUESTING =>
      (set_phase CONFIRMING inst,
       write_request (Some {| requesterId := self; requestedAt := t |}) st,
       true)
  | CONFIRMING =>
      match requestRecord st with
      | Some r =>
          if requesterId r =? self
          then (set_timer (t + poll) (set_phase WAITING inst), st, false)
          else (back_off t inst, st, false)
      | None => (set_timer (t + poll) (set_phase WAITING inst), st, false)
      end
  | CLAIMING =>
      match lockRecord st with
      | Some l =>
          if holderId l =? self then become_holder t self st inst
          else enter t self st inst
      | None => enter t self st inst
      end
  | _ => (inst, st, false)
  end.

(** Modelled from the spec: section 4.2, the start of the supersession
    handler: [onSuperseded] is invoked and will complete [cleanup] later.
    The LockRecord is kept fresh until then and the Heartbeat Timer stops
    with the release: section 8 has a waiter kept out for a cleanup of
    any length (Scenario D: 2000, with [STALE_TIMEOUT] at 30), which a
    record left to age from the signal on could not do. *)
Definition supersede (t : nat) (inst : Instance) : Instance :=
  set_superseded t (set_phase RELEASING inst).

(** Modelled from the spec: [onSuperseded] of an instance that is winding
    down has completed. *)
Definition cleanup_done (t : nat) (inst : Instance) : bool :=
  match phase inst, superseded inst with
  | RELEASING, Some n => n + cleanup inst <=? t
  | _, _ => false
  end.

(** Modelled from the spec: a delivery of the Notifier.  The holder looks
    for a RequestRecord of another instance (section 4.2); a waiting
    instance looks at the store (section 4.1 step 3). *)
Definition react_notify (t : nat) (self : InstanceId) (st : Store) (inst : Instance)
  : Instance * Store * bool :=
  if inbox inst then
    let inst := set_inbox false inst in
    match phase inst with
    | HOLDING =>
        match requestRecord st with
        | Some r =>
            if requesterId r =? self then (inst, st, false)
            else (supersede t inst, st, false)
        | None => (inst, st, false)
        end
    | WAITING => observe t self st inst
    | _ => (inst, st, false)
    end
  else (inst, st, false).

(** Modelled from the spec: the timers.  End of [onSuperseded]: clear
    the LockRecord (section 4.2).  Heartbeat Timer: rewrite
    [lastHeartbeat=now] every [HEARTBEAT_INTERVAL].  Watchdog Timer: look
    at the store every poll interval. *)
Definition react_fire (t : nat) (self : InstanceId) (st : Store) (inst : Instance)
  : Instance * Store * bool :=
  if cleanup_done t inst then (set_phase RELEASED inst, write_lock None st, true)
  else if timer inst <=? t then
    match phase inst with
    | HOLDING | RELEASING =>
        (set_timer (t + HEARTBEAT_INTERVAL) inst,
         write_lock (match lockRecord st with
                     | Some l => Some {| holderId := holderId l; lastHeartbeat := t |}
                     | None => None
                     end) st,
         true)
    | WAITING => observe t self st (set_timer (t + poll) inst)
    | _ => (inst, st, false)
    end
  else (inst, st, false).

(** Modelled from the spec: the shutdown signal of an abrupt teardown
    (section 4.2): a holder releases at once, without [onSuperseded]; the
    test sees the callback not called.  Any other instance just ends. *)
Definition react_shutdown (st : Store) (inst : Instance) : Instance * Store * bool :=
  match phase inst with
  | HOLDING | RELEASING => (set_phase RELEASED inst, write_lock None st, true)
  | _ => (set_alive false inst, st, false)
  end.

(** Modelled from the spec: one turn of an instance. *)
Definition react (t : nat) (self : InstanceId) (tr : Trigger) (st : Store)
    (inst : Instance) : Instance * Store * bool :=
  match tr with
  | OnAct => react_act t self st inst
  | OnNotify => react_notify t self st inst
  | OnFire => react_fire t self st inst
  | OnShutdown => react_shutdown st inst
  | OnCrash => (set_alive false inst, st, false)
  end.

(** Modelled from the spec: the clock, the Shared Store and the instances
    that have called [acquire]. *)
Record World := {
  now : nat;
  store : Store;
  instances : gmap nat Instance;
}.

(** Modelled from the spec: the Notifier tells every other instance that
    a key changed, never the writer; pending notifications coalesce. *)
Definition notify_others (self : InstanceId) (m : gmap nat Instance)
  : gmap nat Instance :=
  map_imap (fun j inst => Some (if decide (j = self) then inst
                                else set_inbox true inst)) m.

(** Modelled from the spec: the effect of a turn on the world; a write to
    the store wakes the Notifier for the other instances. *)
Definition commit (w : World) (self : InstanceId)
    (r : Instance * Store * bool) : World :=
  {| now := now w;
     store := r.1.2;
     instances := <[self := r.1.1]>
                    (if r.2 then notify_others self (instances w)
                     else instances w) |}.

(** Modelled from the spec: a turn of instance [self]; a dead or unknown
    instance takes none. *)
Definition deliver (self : InstanceId) (tr : Trigger) (w : World) : World :=
  match instances w !! self with
  | Some inst =>
      if alive inst then commit w self (react (now w) self tr (store w) inst)
      else w
  | None => w
  end.

(** Modelled from the spec: an instance at its call of [acquire]; its
    [onSuperseded] takes [d]. *)
Definition fresh_instance (d : nat) : Instance :=
  {| phase := REQUESTING; alive := true; cleanup := d; timer := 0;
     inbox := false; resolved := None; superseded := None |}.

(** Modelled from the spec: an instance that must take a turn before time
    passes: a continuation after a short delay is pending, its timer is
    due, or its [onSuperseded] has completed. *)
Definition busy (t : nat) (inst : Instance) : bool :=
  alive inst &&
  match phase inst with
  | REQUESTING | CONFIRMING | CLAIMING => true
  | HOLDING | WAITING => timer inst <=? t
  | RELEASING => (timer inst <=? t) || cleanup_done t inst
  | BACKED_OFF | RELEASED => false
  end.

(** Modelled from the spec: no live instance has a turn to take at this
    time. *)
Definition quiescent (w : World) : bool :=
  bool_decide (map_Forall (fun _ inst => busy (now w) inst = false) (instances w)).

(** Modelled from the spec: the events of a run: a call of [acquire] by a
    new instance whose [onSuperseded] takes [d]; a continuation, a Notifier
    delivery or a timer firing of an instance; one unit of time; the
    shutdown signal; a crash. *)
Inductive Event :=
| Acquire (i : InstanceId) (d : nat)
| Act (i : InstanceId)
| Notify (i : InstanceId)
| Fire (i : InstanceId)
| Tick
| Shutdown (i : InstanceId)
| Crash (i : InstanceId).

(** Modelled from the spec: one event.  Time passes only when no live
    instance is busy, so a timer fires at its time and a short delay is
    shorter than one time unit; Notifier deliveries are never forced. *)
Definition step (w : World) (e : Event) : World :=
  match e with
  | Acquire i d =>
      match instances w !! i with
      | Some _ => w
      | None => commit w i (enter (now w) i (store w) (fresh_instance d))
      end
  | Act i => deliver i OnAct w
  | Notify i => deliver i OnNotify w
  | Fire i => deliver i OnFire w
  | Tick =>
      if quiescent w
      then {| now := S (now w); store := store w; instances := instances w |}
      else w
  | Shutdown i => deliver i OnShutdown w
  | Crash i => deliver i OnCrash w
  end.

(** Modelled from the spec: a run, event after event. *)
Definition run (w : World) (sched : list Event) : World :=
  fold_left step sched w.

End Coordinator.

(** Modelled from the spec: the poll interval of the Watchdog Timer.  The
    spec fixes the interval and gives it no value.  In the third scenario
    of the repository's test a waiter started at 10 s is without the lock
    at 34.5 s and has it at 35 s, so a poll falls on 35 s: the interval
    divides 25 s.  It is taken equal to the heartbeat period. *)
Definition WATCHDOG_INTERVAL : nat := 5.

(** Modelled from the spec: the Shared Store with no record. *)
Definition empty_store : Store := {| lockRecord := None; requestRecord := None |}.

(** Modelled from the spec: no instance has started and the store is empty. *)
Definition initial (t : nat) : World :=
  {| now := t; store := empty_store; instances := ∅ |}.

(** Modelled from the spec: the result of the [acquire] call of instance
    [i], with its time. *)
Definition result (w : World) (i : InstanceId) : option (bool * nat) :=
  match instances w !! i with
  | Some inst => resolved inst
  | None => None
  end.

(** Modelled from the spec: the instance an event belongs to. *)
Definition actor (e : Event) : option InstanceId :=
  match e with
  | Acquire i _ | Act i | Notify i | Fire i | Shutdown i | Crash i => Some i
  | Tick => None
  end.

(** Modelled from the spec: the turn an event gives to an instance that has
    started. *)
Definition trigger_of (e : Event) : option (InstanceId * Trigger) :=
  match e with
  | Act i => Some (i, OnAct)
  | Notify i => Some (i, OnNotify)
  | Fire i => Some (i, OnFire)
  | Shutdown i => Some (i, OnShutdown)
  | Crash i => Some (i, OnCrash)
  | Acquire _ _ | Tick => None
  end.

(** Modelled from the spec: events by which the system runs on its own: no
    new call of [acquire], no shutdown, no crash. *)
Definition internal (e : Event) : bool :=
  match e with
  | Act _ | Notify _ | Fire _ | Tick => true
  | Acquire _ _ | Shutdown _ | Crash _ => false
  end.

(** Modelled from the spec: instance [i] holds the lock. *)
Definition holds (w : World) (i : InstanceId) : Prop :=
  exists inst, instances w !! i = Some inst /\ phase inst = HOLDING.

(** Modelled from the spec: one clean session: the instance starts, its
    claim is confirmed, the system runs on its own, the instance shuts down. *)
Definition session (s : InstanceId * nat * list Event) : list Event :=
  [Acquire s.1.1 s.1.2; Act s.1.1] ++ s.2 ++ [Shutdown s.1.1].

(** Modelled from the spec: clean sessions one after the other. *)
Definition sessions (l : list (InstanceId * nat * list Event)) : list Event :=
  concat (map session l).

End SessionLock.

(** ** Invariants and scenarios of the session lock *)

Module LockSpec.
Import SessionLock.

(** The instance has written a claim at some time: it is past waiting. *)
Definition claimed (inst : Instance) : bool :=
  match phase inst with
  | CLAIMING | HOLDING | RELEASING | RELEASED => true
  | REQUESTING | CONFIRMING | WAITING | BACKED_OFF => false
  end.

(** The instance is or was the holder. *)
Definition held (inst : Instance) : bool :=
  match phase inst with
  | HOLDING | RELEASING | RELEASED => true
  | _ => false
  end.

(** No claim and no [true] result of the instance before time [B]; a
    [true] result belongs to an instance that became the holder. *)
Definition late (B t : nat) (inst : Instance) : Prop :=
  (claimed inst = true -> B <= t)
  /\ (forall T, resolved inst = Some (true, T) -> held inst = true /\ B <= T).

(** The LockRecord stays fresh until time [B]. *)
Definition guard (B t : nat) (st : Store) : Prop :=
  B <= t \/ exists l, lockRecord st = Some l /\ B <= lastHeartbeat l + STALE_TIMEOUT.

(** Heartbeats recorded in the store are not in the future. *)
Definition store_wf (t : nat) (st : Store) : Prop :=
  forall l, lockRecord st = Some l -> lastHeartbeat l <= t.

(** The lock cannot be taken before [B] by any instance outside [ex]. *)
Definition guarded (B : nat) (ex : InstanceId -> Prop) (w : World) : Prop :=
  guard B (now w) (store w)
  /\ store_wf (now w) (store w)
  /\ forall i inst, ~ ex i -> instances w !! i = Some inst -> late B (now w) inst.


(** The shapes of a step. *)
Inductive StepView (P : nat) (w : World) : Event -> World -> Prop :=
| view_idle e : StepView P w e w
| view_tick :
    quiescent w = true ->
    StepView P w Tick {| now := S (now w); store := store w; instances := instances w |}
| view_acquire i d :
    instances w !! i = None ->
    StepView P w (Acquire i d)
             (commit w i (enter (now w) i (store w) (fresh_instance d)))
| view_turn e i tr inst :
    trigger_of e = Some (i, tr) ->
    instances w !! i = Some inst -> alive inst = true ->
    StepView P w e (commit w i (react P (now w) i tr (store w) inst)).

(** The LockRecord carries the heartbeat [h]. *)
Definition heartbeat_is (h : nat) (st : Store) : Prop :=
  exists l, lockRecord st = Some l /\ lastHeartbeat l = h.

(** A holder has stopped at heartbeat [h] without releasing; at time [s],
    before the record is stale, no live instance and no request exist,
    and [W] has not started. *)
Definition crashed_holder (h s : nat) (W : InstanceId) (w : World) : Prop :=
  now w = s /\ h <= s < h + STALE_TIMEOUT
  /\ heartbeat_is h (store w) /\ requestRecord (store w) = None
  /\ instances w !! W = None
  /\ forall i inst, instances w !! i = Some inst -> alive inst = false.

(** The Watchdog of an instance that started waiting at [s] polls at
    [s + k * P], [k >= 1]. *)
Definition poll_time (P s t : nat) : Prop :=
  exists k, 1 <= k /\ t = s + k * P.

(** Where the single waiter can be, after a holder that stopped at [h]. *)
Definition waiter_state (P h s : nat) (W : InstanceId) (t : nat) (st : Store)
    (inst : Instance) : Prop :=
  match phase inst with
  | REQUESTING =>
      t = s /\ resolved inst = None /\ requestRecord st = None
      /\ heartbeat_is h st
  | CONFIRMING =>
      t = s /\ resolved inst = None
      /\ requestRecord st = Some {| requesterId := W; requestedAt := s |}
      /\ heartbeat_is h st
  | WAITING =>
      resolved inst = None
      /\ requestRecord st = Some {| requesterId := W; requestedAt := s |}
      /\ heartbeat_is h st
      /\ t <= timer inst /\ timer inst < h + STALE_TIMEOUT + P
      /\ poll_time P s (timer inst)
  | CLAIMING =>
      resolved inst = None
      /\ requestRecord st = Some {| requesterId := W; requestedAt := s |}
      /\ lockRecord st = Some {| holderId := W; lastHeartbeat := t |}
      /\ h + STALE_TIMEOUT <= t < h + STALE_TIMEOUT + P
      /\ poll_time P s t
  | HOLDING =>
      exists T, resolved inst = Some (true, T)
                /\ h + STALE_TIMEOUT <= T < h + STALE_TIMEOUT + P
                /\ poll_time P s T /\ T <= t
  | RELEASING | BACKED_OFF | RELEASED => False
  end.

Definition waiter_inv (P h s : nat) (W : InstanceId) (w : World) : Prop :=
  (forall i inst, i <> W -> instances w !! i = Some inst -> alive inst = false)
  /\ exists inst, instances w !! W = Some inst /\ alive inst = true
                  /\ inbox inst = false
                  /\ waiter_state P h s W (now w) (store w) inst.

(** One round of the waiter's own events followed by one unit of time. *)
Definition round (W : InstanceId) : list Event :=
  [Act W; Act W; Fire W; Act W; Tick].

Definition rounds (W : InstanceId) (n : nat) : list Event :=
  concat (repeat (round W) n).

(** The pending continuations of a phase. *)
Definition rank (inst : Instance) : nat :=
  match phase inst with
  | REQUESTING => 2
  | CONFIRMING | CLAIMING => 1
  | _ => 0
  end.

Definition resting (t : nat) (inst : Instance) : Prop :=
  rank inst = 0 /\ t < timer inst.






(** A contender at the time [s] of the two requests. *)
Definition contender_early (P s : nat) (st : Store) (x : Instance) : Prop :=
  alive x = true
  /\ match phase x with
     | REQUESTING => resolved x = None
     | CONFIRMING => resolved x = None /\ requestRecord st <> None
     | WAITING => resolved x = None /\ timer x = s + P /\ requestRecord st <> None
     | BACKED_OFF => resolved x = Some (false, s)
     | CLAIMING | HOLDING | RELEASING | RELEASED => False
     end.






(** The contender that has the slot. *)
Definition owner_state (Y : InstanceId) (st : Store) (y : Instance) : Prop :=
  alive y = true
  /\ (forall T, resolved y <> Some (false, T))
  /\ phase y <> BACKED_OFF
  /\ (requestRecord st = None
      \/ exists T, requestRecord st = Some {| requesterId := Y; requestedAt := T |}).




(** Every delivery of the Notifier to a live instance has been made. *)
Definition delivered (w : World) : bool :=
  bool_decide (map_Forall (fun _ inst => alive inst && inbox inst = false)
                          (instances w)).

(** Deliveries are prompt in a run: time passes only once the pending
    deliveries have been made.  The repository's test finds the result of
    the requester that gives up 100 ms after the two requests, well
    within a time unit. *)
Fixpoint prompt (P : nat) (w : World) (sched : list Event) : bool :=
  match sched with
  | [] => true
  | e :: l =>
      match e with
      | Tick => negb (quiescent w) || delivered w
      | _ => true
      end && prompt P (step P w e) l
  end.


(** An instance that held the lock and released it on shutdown. *)
Definition retired (inst : Instance) : Prop :=
  phase inst = RELEASED /\ superseded inst = None
  /\ exists T, resolved inst = Some (true, T).

(** Between two sessions: the store is empty and every instance has
    retired. *)
Definition seq_idle (w : World) : Prop :=
  store w = empty_store
  /\ forall j inst, instances w !! j = Some inst -> retired inst.

(** Within the session of [c]: its claim is written ([confirmed = false])
    or it holds the lock ([confirmed = true]); nobody requests. *)
Definition seq_mid (confirmed : bool) (c : InstanceId) (w : World) : Prop :=
  requestRecord (store w) = None
  /\ (exists l, lockRecord (store w) = Some l /\ holderId l = c)
  /\ (exists x, instances w !! c = Some x /\ alive x = true
        /\ superseded x = None
        /\ if confirmed
           then phase x = HOLDING /\ exists T, resolved x = Some (true, T)
           else phase x = CLAIMING /\ resolved x = None)
  /\ forall j inst, j <> c -> instances w !! j = Some inst -> retired inst.

Definition seq_ok (w : World) : Prop :=
  seq_idle w \/ exists b c, seq_mid b c w.

(** What clean sequential use keeps true at every moment. *)
Definition seq_safe (w : World) : Prop :=
  (forall i j, holds w i -> holds w j -> i = j)
  /\ forall i inst, instances w !! i = Some inst ->
       superseded inst = None /\ forall T, resolved inst <> Some (false, T).

(** The world in which [H] has just become the holder, at time [t]. *)
Definition holding (H : InstanceId) (d t : nat) : World :=
  {| now := t;
     store := {| lockRecord := Some {| holderId := H; lastHeartbeat := t |};
                 requestRecord := None |};
     instances :=
       {[ H := {| phase := HOLDING; alive := true; cleanup := d;
                  timer := t + HEARTBEAT_INTERVAL; inbox := false;
                  resolved := Some (true, t); superseded := None |} ]} |}.

(** The world at time [s] in which holder [H], which became the holder at
    [t0], has crashed after its heartbeat at [h]. *)
Definition crashed (H : InstanceId) (t0 h s : nat) : World :=
  {| now := s;
     store := {| lockRecord := Some {| holderId := H; lastHeartbeat := h |};
                 requestRecord := None |};
     instances :=
       {[ H := {| phase := HOLDING; alive := false; cleanup := 0;
                  timer := h + HEARTBEAT_INTERVAL; inbox := false;
                  resolved := Some (true, t0); superseded := None |} ]} |}.

(** The third scenario of the test: the first instance becomes the holder
    at 0, refreshes its heartbeat at 5 and dies; time goes on to 10. *)
Definition crash_schedule : list Event :=
  [Acquire 1 0; Act 1] ++ repeat Tick 5 ++ [Fire 1; Crash 1] ++ repeat Tick 5.

(** The fourth scenario of the test: the second instance requests, the
    holder is told, cleans up for 2 and releases, the second claims. *)
Definition handoff_schedule : list Event :=
  [Acquire 2 0; Act 2; Act 2; Notify 1; Tick; Tick; Fire 1; Notify 2; Act 2].

(** One unit of time in which the timers of holder [H] and waiter [W]
    fire if they are due. *)
Definition beat (H W : InstanceId) : list Event := [Fire H; Fire W; Tick].

Definition beats (H W : InstanceId) (n : nat) : list Event :=
  concat (repeat (beat H W) n).

(** Scenario D of the spec, a cleanup of 2000: the second instance
    requests at 0, the holder is told, and [n] units of time pass. *)
Definition long_handoff_schedule (n : nat) : list Event :=
  [Acquire 2 0; Act 2; Act 2; Notify 1] ++ beats 1 2 n.

(** The fifth scenario of the test: instances 2 and 3 request in the same
    time unit; 3 writes the slot last and 2 sees it on its re-read; the
    deliveries of the Notifier are made. *)
Definition contest_requests : list Event :=
  [Acquire 2 0; Acquire 3 0; Act 2; Act 3; Act 2; Act 3;
   Notify 1; Notify 2; Notify 3].

(** The holder cleans up for 2 and releases; 3 is told, claims and
    becomes the holder. *)
Definition contest_handoff : list Event :=
  [Tick; Tick; Fire 1; Notify 2; Notify 3; Act 3; Notify 1; Notify 2; Tick].

(** Requests in the same time unit in which each requester has re-read
    the slot before the other writes it: 2 learns of the request of 3
    from the Notifier. *)
Definition blind_requests : list Event :=
  [Acquire 2 0; Acquire 3 0; Act 2; Act 2; Act 3; Act 3;
   Notify 1; Notify 2; Notify 3].

End LockSpec.

(** * Properties of the login glue *)

Module OidcProofs.
Import Js Oidc OidcSpec.

Lemma truthy_string_iff v :
truthy v && String.eqb (typeof v) "string" = true <-> nonempty_string v.
Proof.
split.
- destruct v as [| |b|x|s|xs|props]; simpl;
    rewrite ?andb_false_r; try discriminate.
  intros H. apply andb_prop in H as [H _].
  exists s. split; [reflexivity|].
  intros ->. discriminate.
- intros (s & -> & Hs). simpl. rewrite andb_true_r.
  destruct (String.eqb_spec s ""); [contradiction|reflexivity].
Qed.

Lemma nonempty_string_dec v : {nonempty_string v} + {~ nonempty_string v}.
Proof.
destruct (truthy v && String.eqb (typeof v) "string") eqn:E.
- left. now apply truthy_string_iff.
- right. intros H. apply truthy_string_iff in H. congruence.
Qed.


Lemma nonempty_string_inv v s : nonempty_string v -> v = JsString s -> s <> "".
Proof. intros (s' & -> & Hs) [= ->]. exact Hs. Qed.

Lemma truthy_JsString s : truthy (JsString s) = true <-> s <> "".
Proof.
  simpl. destruct (String.eqb_spec s ""); simpl; split; congruence.
Qed.

(** Two keys of one state are equal only for equal parameter names. *)
Lemma storage_key_inj state a b :
  storage_key state a = storage_key state b -> a = b.
Proof.
  unfold storage_key. intros E.
  apply (String.app_inj "oidc_"), (String.app_inj state) in E.
  now apply (String.app_inj "_") in E.
Qed.

Lemma storage_key_ne state a b : a <> b -> storage_key state a <> storage_key state b.
Proof. intros Hne E. apply Hne. eapply storage_key_inj, E. Qed.

Lemma forallb_false_ex {A} (f : A -> bool) (l : list A) :
  forallb f l = false -> exists x, In x l /\ f x = false.
Proof.
  induction l as [|a l IH]; simpl; [discriminate|].
  destruct (f a) eqn:Ha; simpl.
  - intros E. destruct (IH E) as (x & Hx & Hf). eauto.
  - intros _. eauto.
Qed.

Section Facts.
Context {builtins : Builtins}.

(** Retrieval reads seven entries, parses one and validates. *)
Lemma retrieve_unfold state st :
  retrieveAuthorizationParams state st =
  (match parseDelegatedAuthConfig (stored st state "delegatedAuthConfig") with
   | Return parsed =>
       validateStoredAuthorizationParams (stored_params_object st state parsed)
   | Throw e => Throw e
   end, st).
Proof.
  unfold retrieveAuthorizationParams, bind, getItem, lift, stored,
    stored_params_object.
  destruct (parseDelegatedAuthConfig _); reflexivity.
Qed.


Lemma get_stored_required st state parsed k :
  k ∈ requiredStringProperties ->
  get (stored_params_object st state parsed) k = of_nullable (stored st state k).
Proof.
  unfold requiredStringProperties. rewrite !elem_of_cons, elem_of_nil.
  unfold get, stored_params_object.
  intros [->|[->|[->|[->|[->|[]]]]]]; by simplify_map_eq.
Qed.

Lemma get_stored_identity st state parsed :
  get (stored_params_object st state parsed) "identityServerUrl"
  = nullish_to_undefined (stored st state "identityServerUrl").
Proof. unfold get, stored_params_object. by simplify_map_eq. Qed.

Lemma get_stored_config st state parsed :
  get (stored_params_object st state parsed) "delegatedAuthConfig" = parsed.
Proof. unfold get, stored_params_object. by simplify_map_eq. Qed.

(** Validation either returns its argument or throws the one named error. *)
Lemma validate_cases params :
  validateStoredAuthorizationParams params = Return params
  \/ validateStoredAuthorizationParams params = Throw (OidcError StoredParamsNotFound).
Proof.
  unfold validateStoredAuthorizationParams.
  destruct (_ && _); [left|right]; reflexivity.
Qed.

Lemma validate_Return_iff params :
  validateStoredAuthorizationParams params = Return params
  <-> (forall k, k ∈ requiredStringProperties -> nonempty_string (get params k))
      /\ (get params "identityServerUrl" = JsUndefined
          \/ typeof (get params "identityServerUrl") = "string")
      /\ truthy (get params "delegatedAuthConfig") = true.
Proof.
  unfold validateStoredAuthorizationParams.
  destruct (forallb _ _ && _ && _) eqn:E.
  - split; [intros _|reflexivity].
    apply andb_prop in E as [E Hc]. apply andb_prop in E as [Hr Hi].
    split; [|split; [|exact Hc]].
    + intros k Hk. apply truthy_string_iff.
      rewrite forallb_forall in Hr. apply Hr. now apply list_elem_of_In.
    + destruct (get params "identityServerUrl"); auto;
        right; now apply String.eqb_eq.
  - split; [discriminate|]. intros (Hr & Hi & Hc). exfalso.
    apply not_true_iff_false in E. apply E.
    rewrite !andb_true_iff. split; [split|exact Hc].
    + apply forallb_forall. intros k Hk. apply truthy_string_iff, Hr.
      now apply list_elem_of_In.
    + destruct Hi as [->|Hi]; [reflexivity|].
      destruct (get params "identityServerUrl"); try reflexivity;
        now apply String.eqb_eq.
Qed.

Lemma validate_Throw_iff params :
  validateStoredAuthorizationParams params = Throw (OidcError StoredParamsNotFound)
  <-> (exists k, k ∈ requiredStringProperties /\ ~ nonempty_string (get params k))
      \/ (get params "identityServerUrl" <> JsUndefined
          /\ typeof (get params "identityServerUrl") <> "string")
      \/ truthy (get params "delegatedAuthConfig") = false.
Proof.
  split.
  - unfold validateStoredAuthorizationParams.
    destruct (forallb _ _) eqn:Hr.
    2:{ intros _. left. apply forallb_false_ex in Hr as (k & Hk & Hf).
        exists k. split; [now apply list_elem_of_In|].
        intros Hn. apply truthy_string_iff in Hn. congruence. }
    destruct (truthy (get params "delegatedAuthConfig")) eqn:Hc.
    2:{ intros _. right. right. reflexivity. }
    rewrite andb_true_r. simpl.
    destruct (get params "identityServerUrl") eqn:Hi; simpl;
      try discriminate; intros _; right; left; split; discriminate.
  - intros Hbad.
    destruct (validate_cases params) as [E|E]; [|exact E].
    apply validate_Return_iff in E as (Hr & Hi & Hc). exfalso.
    destruct Hbad as [(k & Hk & Hn)|[[Hu Ht]|Hf]].
    + apply Hn, Hr, Hk.
    + destruct Hi; contradiction.
    + congruence.
Qed.


Lemma parse_config_cases o :
  (exists v, parseDelegatedAuthConfig o = Return v)
  \/ parseDelegatedAuthConfig o = Throw SyntaxError.
Proof.
  unfold parseDelegatedAuthConfig.
  destruct (truthy _); [|eauto].
  destruct (JSON_parse _); eauto.
Qed.

(** Retrieval ends in one of three ways. *)
Lemma retrieve_cases state st :
  (exists params, (retrieveAuthorizationParams state st).1 = Return params)
  \/ (retrieveAuthorizationParams state st).1 = Throw (OidcError StoredParamsNotFound)
  \/ (retrieveAuthorizationParams state st).1 = Throw SyntaxError.
Proof.
  rewrite retrieve_unfold. simpl.
  destruct (parse_config_cases (stored st state "delegatedAuthConfig"))
    as [[v ->]| ->]; [|auto].
  destruct (validate_cases (stored_params_object st state v)) as [-> | ->]; eauto.
Qed.

Lemma retrieve_storage state st : (retrieveAuthorizationParams state st).2 = st.
Proof. now rewrite retrieve_unfold. Qed.

Lemma absent_empty_or_not_string_iff (q : gmap string value) k :
  absent_empty_or_not_string q k <-> ~ nonempty_string (get q k).
Proof.
  unfold absent_empty_or_not_string, get, nonempty_string.
  destruct (q !! k) as [v|] eqn:E; simpl.
  - split.
    + intros [?|[[= ->]|(v' & [= <-] & Ht)]] (s & Hv & Hs); try discriminate.
      * now injection Hv as <-.
      * subst v. now apply Ht.
    + intros Hn. destruct v; try (right; right; eexists; split; [reflexivity|discriminate]).
      destruct (decide (s = "")) as [->|Hs]; [auto|].
      exfalso. apply Hn. eauto.
  - split; [|auto]. intros _ (s & ? & _). discriminate.
Qed.

Lemma getCodeAndState_Throw_iff q :
  getCodeAndStateFromQueryParams q = Throw (OidcError InvalidQueryParameters)
  <-> ~ (nonempty_string (get q "code") /\ nonempty_string (get q "state")).
Proof.
  unfold getCodeAndStateFromQueryParams.
  rewrite <- !(truthy_string_iff (get q _)).
  destruct (truthy (get q "code")), (String.eqb (typeof (get q "code")) "string"),
    (truthy (get q "state")), (String.eqb (typeof (get q "state")) "string");
    simpl; split; try discriminate; try tauto; try (intros _ [? ?]; discriminate).
Qed.

Lemma getCodeAndState_Return q code state :
  get q "code" = JsString code -> code <> "" ->
  get q "state" = JsString state -> state <> "" ->
  getCodeAndStateFromQueryParams q = Return (code, state).
Proof.
  intros Hc Hcn Hs Hsn. unfold getCodeAndStateFromQueryParams.
  rewrite Hc, Hs. simpl.
  destruct (String.eqb_spec code ""), (String.eqb_spec state ""); try contradiction.
  reflexivity.
Qed.

Lemma getCodeAndState_cases q :
  getCodeAndStateFromQueryParams q = Throw (OidcError InvalidQueryParameters)
  \/ exists code state,
       get q "code" = JsString code /\ code <> ""
       /\ get q "state" = JsString state /\ state <> ""
       /\ getCodeAndStateFromQueryParams q = Return (code, state).
Proof.
  destruct (nonempty_string_dec (get q "code")) as [(c & Hc & Hcn)|Hn];
    [destruct (nonempty_string_dec (get q "state")) as [(s & Hs & Hsn)|Hn]|].
  - right. exists c, s. repeat split; auto using getCodeAndState_Return.
  - left. apply getCodeAndState_Throw_iff. tauto.
  - left. apply getCodeAndState_Throw_iff. tauto.
Qed.

(** With a valid code and state the login continues with the stored
    parameters of that state and the exchange of that code. *)
Lemma completeOidcLogin_continue q st code state :
  getCodeAndStateFromQueryParams q = Return (code, state) ->
  completeOidcLogin q st =
  (let* stored := retrieveAuthorizationParams state in
   let* response := lift (awaitGrant code stored) in
   ret {| res_homeserverUrl := get stored "homeserverUrl";
          res_identityServerUrl := get stored "identityServerUrl";
          res_accessToken := access_token response |}) st.
Proof.
  intros E. unfold completeOidcLogin, bind at 1, lift at 1. now rewrite E.
Qed.

Lemma completeOidcLogin_invalid q st :
  getCodeAndStateFromQueryParams q = Throw (OidcError InvalidQueryParameters) ->
  completeOidcLogin q st = (Throw (OidcError InvalidQueryParameters), st).
Proof.
  intros E. unfold completeOidcLogin, bind, lift. now rewrite E.
Qed.

(** What follows the query check never throws [InvalidQueryParameters]. *)
Lemma continue_not_invalid state code st :
  ((let* stored := retrieveAuthorizationParams state in
    let* response := lift (awaitGrant code stored) in
    ret {| res_homeserverUrl := get stored "homeserverUrl";
           res_identityServerUrl := get stored "identityServerUrl";
           res_accessToken := access_token response |}) st).1
  <> Throw (OidcError InvalidQueryParameters).
Proof.
  unfold bind at 1.
  destruct (retrieve_cases state st) as [[params E]|[E|E]];
    destruct (retrieveAuthorizationParams state st) as [o st']; simpl in E; subst o;
    simpl; try discriminate.
  unfold bind, lift, awaitGrant, ret.
  destruct (completeAuthorizationCodeGrant code params); simpl; discriminate.
Qed.


Lemma parse_config_Throw_iff o :
  parseDelegatedAuthConfig o = Throw SyntaxError <-> malformed_config o.
Proof.
  unfold parseDelegatedAuthConfig, malformed_config.
  destruct o as [text|]; simpl.
  - destruct (String.eqb_spec text "") as [->|Hne]; simpl.
    + split; [discriminate|]. intros (t & [= <-] & Hn & _). now destruct Hn.
    + destruct (JSON_parse text) eqn:E.
      * split; [discriminate|]. intros (t & [= <-] & _ & Hp). congruence.
      * split; [eauto|reflexivity].
  - split; [discriminate|]. intros (t & ? & _). discriminate.
Qed.

Lemma parse_config_Return_iff o v :
  parseDelegatedAuthConfig o = Return v
  <-> (missing_or_empty o /\ v = JsUndefined)
      \/ (exists text, o = Some text /\ text <> "" /\ JSON_parse text = Some v).
Proof.
  unfold parseDelegatedAuthConfig, missing_or_empty.
  destruct o as [text|]; simpl.
  - destruct (String.eqb_spec text "") as [->|Hne]; simpl.
    + split.
      * intros [= <-]. auto.
      * intros [[_ ->]|(t & [= <-] & Hn & _)]; [reflexivity|now destruct Hn].
    + destruct (JSON_parse text) eqn:E.
      * split.
        -- intros [= <-]. right. eauto.
        -- intros [[[?|[= ->]] _]|(t & [= <-] & _ & Hp)];
             try discriminate; [now destruct Hne|congruence].
      * split; [discriminate|].
        intros [[[?|[= ->]] _]|(t & [= <-] & _ & Hp)];
          try discriminate; [now destruct Hne|congruence].
  - split.
    + intros [= <-]. auto.
    + intros [[_ ->]|(t & ? & _)]; [reflexivity|discriminate].
Qed.

Lemma nonempty_of_nullable o :
  nonempty_string (of_nullable o) <-> ~ missing_or_empty o.
Proof.
  unfold nonempty_string, missing_or_empty. destruct o as [s|]; simpl.
  - split.
    + intros (s' & [= <-] & Hs) [?|[= ->]]; [discriminate|now apply Hs].
    + intros Hn. exists s. split; [reflexivity|]. intros ->. auto.
  - split; [|intros Hn; exfalso; auto].
    intros (s' & ? & _). discriminate.
Qed.

Lemma missing_or_empty_dec o : {missing_or_empty o} + {~ missing_or_empty o}.
Proof.
  unfold missing_or_empty. destruct o as [s|]; [|auto].
  destruct (decide (s = "")) as [->|Hn]; [auto|].
  right. intros [?|[= ?]]; [discriminate|contradiction].
Qed.

(** The object read back passes validation exactly when the five required
    entries are non-empty and the parsed configuration is truthy: the
    identity-server entry, a string or [undefined], always passes. *)
Lemma validate_stored_Return_iff st state parsed :
  validateStoredAuthorizationParams (stored_params_object st state parsed)
  = Return (stored_params_object st state parsed)
  <-> (forall k, k ∈ requiredStringProperties -> ~ missing_or_empty (stored st state k))
      /\ truthy parsed = true.
Proof.
  rewrite validate_Return_iff, get_stored_identity, get_stored_config.
  split.
  - intros (Hr & _ & Hc). split; [|exact Hc].
    intros k Hk. apply nonempty_of_nullable. rewrite <- (get_stored_required _ _ parsed k Hk).
    now apply Hr.
  - intros (Hr & Hc). split; [|split; [|exact Hc]].
    + intros k Hk. rewrite (get_stored_required _ _ _ _ Hk).
      now apply nonempty_of_nullable, Hr.
    + destruct (stored st state "identityServerUrl"); simpl; auto.
Qed.

Lemma required_decide st state :
  (forall k, k ∈ requiredStringProperties -> ~ missing_or_empty (stored st state k))
  \/ (exists k, k ∈ requiredStringProperties /\ missing_or_empty (stored st state k)).
Proof.
  induction requiredStringProperties as [|a l IH].
  - left. intros k Hk. inversion Hk.
  - destruct (missing_or_empty_dec (stored st state a)) as [Ha|Ha].
    + right. exists a. split; [left|exact Ha].
    + destruct IH as [IH|(k & Hk & Hm)].
      * left. intros k Hk. apply elem_of_cons in Hk as [->|Hk]; auto.
      * right. exists k. split; [now right|exact Hm].
Qed.


Lemma retrieve_SyntaxError_iff state st :
  (retrieveAuthorizationParams state st).1 = Throw SyntaxError
  <-> malformed_config (stored st state "delegatedAuthConfig").
Proof.
  rewrite retrieve_unfold, <- parse_config_Throw_iff. simpl.
  destruct (parse_config_cases (stored st state "delegatedAuthConfig"))
    as [[v ->]| ->]; [|tauto].
  destruct (validate_cases (stored_params_object st state v)) as [-> | ->];
    split; discriminate.
Qed.

Lemma retrieve_Return_iff state st params :
  (retrieveAuthorizationParams state st).1 = Return params
  <-> exists parsed,
        parseDelegatedAuthConfig (stored st state "delegatedAuthConfig") = Return parsed
        /\ params = stored_params_object st state parsed
        /\ (forall k, k ∈ requiredStringProperties ->
                      ~ missing_or_empty (stored st state k))
        /\ truthy parsed = true.
Proof.
  rewrite retrieve_unfold. simpl.
  destruct (parse_config_cases (stored st state "delegatedAuthConfig"))
    as [[v Hv]| Hv]; rewrite Hv.
  - destruct (validate_cases (stored_params_object st state v)) as [E|E];
      rewrite E.
    + apply validate_stored_Return_iff in E as [Hr Hc]. split.
      * intros [= <-]. exists v. auto.
      * intros (v' & [= <-] & -> & _). reflexivity.
    + split; [discriminate|].
      intros (v' & [= <-] & _ & Hr & Hc). exfalso.
      assert (validateStoredAuthorizationParams (stored_params_object st state v)
              = Return (stored_params_object st state v)) by
        (apply validate_stored_Return_iff; auto).
      congruence.
  - split; [discriminate|]. intros (v' & ? & _). discriminate.
Qed.

Lemma retrieve_NotFound_iff state st :
  (retrieveAuthorizationParams state st).1 = Throw (OidcError StoredParamsNotFound)
  <-> exists parsed,
        parseDelegatedAuthConfig (stored st state "delegatedAuthConfig") = Return parsed
        /\ ((exists k, k ∈ requiredStringProperties
                       /\ missing_or_empty (stored st state k))
            \/ truthy parsed = false).
Proof.
  rewrite retrieve_unfold. simpl.
  destruct (parse_config_cases (stored st state "delegatedAuthConfig"))
    as [[v Hv]| Hv]; rewrite Hv.
  - destruct (validate_cases (stored_params_object st state v)) as [E|E];
      rewrite E.
    + apply validate_stored_Return_iff in E as [Hr Hc].
      split; [discriminate|].
      intros (v' & [= <-] & [(k & Hk & Hm)|Hf]); exfalso;
        [now apply (Hr k)|congruence].
    + split; [intros _|reflexivity]. exists v. split; [reflexivity|].
      destruct (required_decide st state) as [Hr|Hex]; [|auto].
      right. destruct (truthy v) eqn:Hc; [|reflexivity]. exfalso.
      assert (validateStoredAuthorizationParams (stored_params_object st state v)
              = Return (stored_params_object st state v)) by
        (apply validate_stored_Return_iff; auto).
      congruence.
  - split; [discriminate|]. intros (v' & ? & _). discriminate.
Qed.

(** C5: [completeOidcLogin] throws [InvalidQueryParameters] exactly when
    the [code] entry or the [state] entry of the query parameters is
    absent, empty or not a string; when both are non-empty strings the
    login goes on with exactly these two values: the stored parameters of
    that state are retrieved and that code is exchanged. *)
Theorem C5_query_parameter_validation (q : gmap string value) (st : gmap string string) :
  ((completeOidcLogin q st).1 = Throw (OidcError InvalidQueryParameters)
   <-> absent_empty_or_not_string q "code" \/ absent_empty_or_not_string q "state")
  /\ (forall code state,
        q !! "code" = Some (JsString code) -> code <> "" ->
        q !! "state" = Some (JsString state) -> state <> "" ->
        getCodeAndStateFromQueryParams q = Return (code, state)
        /\ completeOidcLogin q st =
           (let* stored := retrieveAuthorizationParams state in
            let* response := lift (awaitGrant code stored) in
            ret {| res_homeserverUrl := get stored "homeserverUrl";
                   res_identityServerUrl := get stored "identityServerUrl";
                   res_accessToken := access_token response |}) st).
Proof.
  split.
  - rewrite !absent_empty_or_not_string_iff.
    destruct (getCodeAndState_cases q)
      as [E|(code & state & Hc & Hcn & Hs & Hsn & E)].
    + rewrite (completeOidcLogin_invalid _ _ E). simpl.
      apply getCodeAndState_Throw_iff in E.
      split; [intros _|reflexivity].
      destruct (nonempty_string_dec (get q "code")); [|auto].
      destruct (nonempty_string_dec (get q "state")); [|auto].
      exfalso. auto.
    + rewrite (completeOidcLogin_continue _ _ _ _ E). split.
      * intros Hthrow. now apply continue_not_invalid in Hthrow.
      * intros [Hn|Hn]; exfalso; apply Hn; [exists code|exists state]; auto.
  - intros code state Hc Hcn Hs Hsn.
    assert (E : getCodeAndStateFromQueryParams q = Return (code, state)).
    { apply getCodeAndState_Return; unfold get; try rewrite Hc; try rewrite Hs; auto. }
    split; [exact E|]. now apply completeOidcLogin_continue.
Qed.


(** C6 (amended): retrieval for a state throws [StoredParamsNotFound], an
    error distinct from [InvalidQueryParameters], exactly when
    [JSON.parse] does not reject the stored configuration text and one of
    the five required entries is absent or empty, or the configuration
    entry is absent, empty or parses to a falsy value; a configuration
    text that [JSON.parse] rejects makes retrieval throw that
    [SyntaxError] instead, whatever the other entries hold; otherwise the
    object read from the storage is returned as it is.  On any object,
    validation throws [StoredParamsNotFound] exactly when a required
    property is not a non-empty string, [identityServerUrl] is neither
    [undefined] nor a string, or [delegatedAuthConfig] is falsy, and
    returns the object unchanged otherwise. *)
Theorem C6_stored_parameter_validation (state : string) (st : gmap string string) :
  let cfg := stored st state "delegatedAuthConfig" in
  let out := (retrieveAuthorizationParams state st).1 in
  (out = Throw SyntaxError <-> malformed_config cfg)
  /\ (out = Throw (OidcError StoredParamsNotFound)
      <-> ~ malformed_config cfg
          /\ ((exists k, k ∈ requiredStringProperties
                         /\ missing_or_empty (stored st state k))
              \/ missing_or_empty cfg \/ falsy_config cfg))
  /\ (forall params,
        out = Return params
        <-> exists text parsed,
              cfg = Some text /\ text <> "" /\ JSON_parse text = Some parsed
              /\ truthy parsed = true
              /\ (forall k, k ∈ requiredStringProperties ->
                            ~ missing_or_empty (stored st state k))
              /\ params = stored_params_object st state parsed)
  /\ OidcError StoredParamsNotFound <> OidcError InvalidQueryParameters
  /\ (forall params : gmap string value,
        (validateStoredAuthorizationParams params
         = Throw (OidcError StoredParamsNotFound)
         <-> (exists k, k ∈ requiredStringProperties
                        /\ ~ nonempty_string (get params k))
             \/ (get params "identityServerUrl" <> JsUndefined
                 /\ typeof (get params "identityServerUrl") <> "string")
             \/ truthy (get params "delegatedAuthConfig") = false)
        /\ (validateStoredAuthorizationParams params = Return params
            \/ validateStoredAuthorizationParams params
               = Throw (OidcError StoredParamsNotFound))).
Proof.
  intros cfg out. subst out.
  split; [apply retrieve_SyntaxError_iff|].
  split; [|split; [|split; [discriminate|]]].
  - rewrite retrieve_NotFound_iff. fold cfg. split.
    + intros (parsed & Hp & Hbad). split.
      * intros Hm. apply parse_config_Throw_iff in Hm. congruence.
      * destruct Hbad as [Hr|Hf]; [auto|]. right.
        apply parse_config_Return_iff in Hp as [[Hm _]|(text & Ht & Hn & Hj)];
          [auto|].
        right. exists text, parsed. auto.
    + intros (Hnm & Hbad).
      destruct (parse_config_cases cfg) as [[v Hv]|Hv];
        [|now apply parse_config_Throw_iff in Hv].
      exists v. split; [exact Hv|].
      destruct Hbad as [Hr|[Hm|(text & v' & Ht & Hn & Hj & Hf)]]; [auto| |].
      * right.
        apply parse_config_Return_iff in Hv as [[_ ->]|(text & Ht & Hn & _)];
          [reflexivity|].
        exfalso. destruct Hm as [Hm|Hm]; rewrite Hm in Ht; [discriminate|].
        injection Ht as <-. now apply Hn.
      * right.
        apply parse_config_Return_iff in Hv as [[Hm _]|(text' & Ht' & _ & Hj')].
        -- exfalso. destruct Hm as [Hm|Hm]; rewrite Hm in Ht; [discriminate|].
           injection Ht as <-. now apply Hn.
        -- congruence.
  - intros params. rewrite retrieve_Return_iff. fold cfg. split.
    + intros (parsed & Hp & -> & Hr & Hc).
      apply parse_config_Return_iff in Hp as [[_ ->]|(text & Ht & Hn & Hj)];
        [discriminate|].
      exists text, parsed. auto 10.
    + intros (text & parsed & Ht & Hn & Hj & Hc & Hr & ->).
      exists parsed. repeat split; auto.
      apply parse_config_Return_iff. right. eauto.
  - intros params. split; [apply validate_Throw_iff|apply validate_cases].
Qed.


Lemma not_config_of_required k :
  k ∈ requiredStringProperties -> k <> "delegatedAuthConfig".
Proof.
  unfold requiredStringProperties. rewrite !elem_of_cons, elem_of_nil.
  intros [->|[->|[->|[->|[->|[]]]]]]; discriminate.
Qed.

Lemma stored_delete_ne st state k k' :
  k <> k' -> stored (delete (storage_key state k) st) state k' = stored st state k'.
Proof.
  intros Hne. unfold stored. apply lookup_delete_ne. now apply storage_key_ne.
Qed.

Lemma stored_delete_eq st state k :
  stored (delete (storage_key state k) st) state k = None.
Proof. unfold stored. apply lookup_delete_eq. Qed.

(** Retrieval with a required entry absent or empty: the parser's error if
    the configuration text is rejected, the named error otherwise. *)
Lemma retrieve_missing_required state st k :
  k ∈ requiredStringProperties ->
  missing_or_empty (stored st state k) ->
  (retrieveAuthorizationParams state st).1
  = match parseDelegatedAuthConfig (stored st state "delegatedAuthConfig") with
    | Return _ => Throw (OidcError StoredParamsNotFound)
    | Throw e => Throw e
    end.
Proof.
  intros Hk Hm.
  destruct (parse_config_cases (stored st state "delegatedAuthConfig"))
    as [[v Hv]|Hv]; rewrite Hv.
  - apply retrieve_NotFound_iff. exists v. split; [exact Hv|]. left. eauto.
  - now apply retrieve_SyntaxError_iff, parse_config_Throw_iff.
Qed.

(** C9 (amended): an empty string stored under a required key is treated
    exactly like an absent key: retrieval gives the same result as with
    the entry deleted, and that result is [StoredParamsNotFound] whenever
    [JSON.parse] does not reject the stored configuration text (when it
    does, its [SyntaxError] is thrown before validation runs); validation
    itself rejects every object whose required property is the empty
    string. *)
Theorem C9_empty_required_value (state : string) (st : gmap string string) (k : string) :
  k ∈ requiredStringProperties ->
  stored st state k = Some "" ->
  (retrieveAuthorizationParams state st).1
  = (retrieveAuthorizationParams state (delete (storage_key state k) st)).1
  /\ (~ malformed_config (stored st state "delegatedAuthConfig") ->
      (retrieveAuthorizationParams state st).1
      = Throw (OidcError StoredParamsNotFound))
  /\ (malformed_config (stored st state "delegatedAuthConfig") ->
      (retrieveAuthorizationParams state st).1 = Throw SyntaxError)
  /\ (forall params : gmap string value,
        get params k = JsString "" ->
        validateStoredAuthorizationParams params
        = Throw (OidcError StoredParamsNotFound)).
Proof.
  intros Hk Hempty.
  assert (Hm : missing_or_empty (stored st state k)) by (right; exact Hempty).
  split; [|split; [|split]].
  - rewrite (retrieve_missing_required _ _ _ Hk Hm).
    rewrite (retrieve_missing_required _ (delete _ st) _ Hk).
    + rewrite stored_delete_ne by now apply not_config_of_required.
      reflexivity.
    + left. apply stored_delete_eq.
  - intros Hnm. rewrite (retrieve_missing_required _ _ _ Hk Hm).
    destruct (parse_config_cases (stored st state "delegatedAuthConfig"))
      as [[v ->]|Hv]; [reflexivity|].
    now apply parse_config_Throw_iff in Hv.
  - apply retrieve_SyntaxError_iff.
  - intros params Hg. apply validate_Throw_iff. left. exists k.
    split; [exact Hk|]. rewrite Hg. intros (s & [= <-] & Hs). now apply Hs.
Qed.

Lemma store_unfold ap cfg clientId homeserverUrl ids st :
  storeAuthorizationParams ap cfg clientId homeserverUrl ids st
  = (Return tt, storage_after_store ap cfg clientId homeserverUrl ids st).
Proof.
  unfold storeAuthorizationParams, storage_after_store, bind, setItem, ret.
  destruct ids as [url|]; simpl; [|reflexivity].
  destruct (String.eqb url ""); reflexivity.
Qed.

Lemma stored_after_store_required ap cfg clientId homeserverUrl ids st :
  let st' := storage_after_store ap cfg clientId homeserverUrl ids st in
  stored st' (state ap) "nonce" = Some (nonce ap)
  /\ stored st' (state ap) "redirectUri" = Some (redirectUri ap)
  /\ stored st' (state ap) "codeVerifier" = Some (codeVerifier ap)
  /\ stored st' (state ap) "clientId" = Some clientId
  /\ stored st' (state ap) "homeserverUrl" = Some homeserverUrl
  /\ stored st' (state ap) "delegatedAuthConfig" = Some (JSON_stringify (JsObject cfg)).
Proof.
  assert (Hne : forall a b : string, a <> b ->
                  storage_key (state ap) a <> storage_key (state ap) b)
    by (intros; now apply storage_key_ne).
  unfold stored, storage_after_store.
  destruct ids as [url|]; [destruct (String.eqb url "")|];
    repeat split;
    repeat first [ apply lookup_insert_eq
                 | rewrite lookup_insert_ne by (apply Hne; discriminate) ].
Qed.

Lemma stored_after_store_identity ap cfg clientId homeserverUrl ids st :
  stored (storage_after_store ap cfg clientId homeserverUrl ids st)
         (state ap) "identityServerUrl"
  = match ids with
    | Some url => if String.eqb url "" then stored st (state ap) "identityServerUrl"
                  else Some url
    | None => stored st (state ap) "identityServerUrl"
    end.
Proof.
  assert (Hne : forall a b : string, a <> b ->
                  storage_key (state ap) a <> storage_key (state ap) b)
    by (intros; now apply storage_key_ne).
  unfold stored, storage_after_store.
  destruct ids as [url|]; [destruct (String.eqb url "")|];
    repeat first [ apply lookup_insert_eq
                 | rewrite lookup_insert_ne by (apply Hne; discriminate) ];
    reflexivity.
Qed.


(** Storing and then retrieving by the same state returns the object
    read from the written storage. *)
Lemma store_retrieve_succeeds ap cfg clientId homeserverUrl ids st :
  nonce ap <> "" -> redirectUri ap <> "" -> codeVerifier ap <> "" ->
  clientId <> "" -> homeserverUrl <> "" ->
  JSON_parse "" = None ->
  JSON_parse (JSON_stringify (JsObject cfg)) = Some (JsObject cfg) ->
  let st' := storage_after_store ap cfg clientId homeserverUrl ids st in
  (retrieveAuthorizationParams (state ap) st').1
  = Return (stored_params_object st' (state ap) (JsObject cfg)).
Proof.
  intros Hn Hr Hv Hc Hh Hempty Hround st'.
  destruct (stored_after_store_required ap cfg clientId homeserverUrl ids st)
    as (En & Er & Ev & Ec & Eh & Ecfg). fold st' in En, Er, Ev, Ec, Eh, Ecfg.
  assert (Htext : JSON_stringify (JsObject cfg) <> "") by (intros E; congruence).
  apply retrieve_Return_iff. exists (JsObject cfg).
  split; [|split; [reflexivity|split; [|reflexivity]]].
  - apply parse_config_Return_iff. right. eauto.
  - unfold requiredStringProperties. intros k.
    rewrite !elem_of_cons, elem_of_nil.
    intros [->|[->|[->|[->|[->|[]]]]]] [Hm|Hm]; congruence.
Qed.

(** C7 (amended): when [nonce], [redirectUri], [codeVerifier], [clientId]
    and [homeserverUrl] are non-empty strings and the configuration object
    survives [JSON.stringify] followed by [JSON.parse] (which rejects the
    empty text), storing the parameters and then retrieving by the same
    state succeeds and returns the same five strings and the same
    configuration; [identityServerUrl] is the supplied value when a
    non-empty one was supplied, and otherwise whatever the storage already
    held under that key for this state: [undefined] only if it held
    nothing. *)
Theorem C7_store_retrieve_round_trip
    (ap : AuthorizationParams) (cfg : gmap string value)
    (clientId homeserverUrl : string) (ids : option string)
    (st : gmap string string) :
  nonce ap <> "" -> redirectUri ap <> "" -> codeVerifier ap <> "" ->
  clientId <> "" -> homeserverUrl <> "" ->
  JSON_parse "" = None ->
  JSON_parse (JSON_stringify (JsObject cfg)) = Some (JsObject cfg) ->
  let stored_run := storeAuthorizationParams ap cfg clientId homeserverUrl ids st in
  stored_run.1 = Return tt
  /\ exists params,
       (retrieveAuthorizationParams (state ap) stored_run.2).1 = Return params
       /\ get params "nonce" = JsString (nonce ap)
       /\ get params "redirectUri" = JsString (redirectUri ap)
       /\ get params "codeVerifier" = JsString (codeVerifier ap)
       /\ get params "clientId" = JsString clientId
       /\ get params "homeserverUrl" = JsString homeserverUrl
       /\ get params "delegatedAuthConfig" = JsObject cfg
       /\ (forall url, ids = Some url -> url <> "" ->
           get params "identityServerUrl" = JsString url)
       /\ (ids = None \/ ids = Some "" ->
           get params "identityServerUrl"
           = nullish_to_undefined (stored st (state ap) "identityServerUrl"))
       /\ (ids = None \/ ids = Some "" ->
           stored st (state ap) "identityServerUrl" = None ->
           get params "identityServerUrl" = JsUndefined).
Proof.
  intros Hn Hr Hv Hc Hh Hempty Hround stored_run. subst stored_run.
  rewrite store_unfold. simpl. split; [reflexivity|].
  set (st' := storage_after_store ap cfg clientId homeserverUrl ids st).
  destruct (stored_after_store_required ap cfg clientId homeserverUrl ids st)
    as (En & Er & Ev & Ec & Eh & Ecfg). fold st' in En, Er, Ev, Ec, Eh, Ecfg.
  assert (Ei := stored_after_store_identity ap cfg clientId homeserverUrl ids st).
  fold st' in Ei.
  exists (stored_params_object st' (state ap) (JsObject cfg)).
  split; [now apply store_retrieve_succeeds|].
  assert (Hreq : forall k, k ∈ requiredStringProperties ->
            get (stored_params_object st' (state ap) (JsObject cfg)) k
            = of_nullable (stored st' (state ap) k))
    by (intros; now apply get_stored_required).
  refine (conj _ (conj _ (conj _ (conj _ (conj _ (conj _ (conj _ (conj _ _)))))))).
  - rewrite Hreq, En; [reflexivity|set_solver].
  - rewrite Hreq, Er; [reflexivity|set_solver].
  - rewrite Hreq, Ev; [reflexivity|set_solver].
  - rewrite Hreq, Ec; [reflexivity|set_solver].
  - rewrite Hreq, Eh; [reflexivity|set_solver].
  - apply get_stored_config.
  - intros url -> Hurl. rewrite get_stored_identity, Ei.
    destruct (String.eqb_spec url ""); [contradiction|reflexivity].
  - intros [-> | ->]; rewrite get_stored_identity, Ei; reflexivity.
  - intros Hids Hnone. rewrite get_stored_identity, Ei.
    destruct Hids as [-> | ->]; simpl; now rewrite Hnone.
Qed.

Lemma completeOidcLogin_storage q st : (completeOidcLogin q st).2 = st.
Proof.
  destruct (getCodeAndState_cases q) as [E|(code & state & _ & _ & _ & _ & E)].
  - now rewrite (completeOidcLogin_invalid _ _ E).
  - rewrite (completeOidcLogin_continue _ _ _ _ E).
    unfold bind at 1. rewrite retrieve_unfold.
    destruct (match parseDelegatedAuthConfig _ with Return _ => _ | Throw _ => _ end);
      [|reflexivity].
    unfold bind, lift, ret. destruct (awaitGrant code a); reflexivity.
Qed.

(** C8: when [completeOidcLogin] succeeds, [homeserverUrl] of its result
    is the home-server URL stored for the state of the query,
    [identityServerUrl] is the identity-server URL stored for it
    ([undefined] when none is stored), and [accessToken] is the
    [access_token] of the response obtained by exchanging the code of the
    query with the stored parameters. *)
Theorem C8_completion_result (q : gmap string value) (st : gmap string string)
    (result : LoginResult) :
  (completeOidcLogin q st).1 = Return result ->
  exists code state params response homeserverUrl,
    q !! "code" = Some (JsString code) /\ q !! "state" = Some (JsString state)
    /\ (retrieveAuthorizationParams state st).1 = Return params
    /\ completeAuthorizationCodeGrant code params = inr response
    /\ stored st state "homeserverUrl" = Some homeserverUrl
    /\ res_homeserverUrl result = JsString homeserverUrl
    /\ res_identityServerUrl result
       = nullish_to_undefined (stored st state "identityServerUrl")
    /\ res_accessToken result = access_token response.
Proof.
  destruct (getCodeAndState_cases q) as [E|(code & state & Hc & _ & Hs & _ & E)].
  { rewrite (completeOidcLogin_invalid _ _ E). discriminate. }
  rewrite (completeOidcLogin_continue _ _ _ _ E). unfold bind at 1.
  destruct (retrieve_cases state st) as [[params Hp]|[Hp|Hp]];
    destruct (retrieveAuthorizationParams state st) as [o st'] eqn:Hret;
    simpl in Hp; subst o; simpl; try discriminate.
  unfold bind, lift, ret, awaitGrant.
  destruct (completeAuthorizationCodeGrant code params) as [msg|response] eqn:Hg;
    simpl; [discriminate|].
  intros [= <-]. simpl.
  assert (Hp : (retrieveAuthorizationParams state st).1 = Return params)
    by now rewrite Hret.
  apply retrieve_Return_iff in Hp as (parsed & _ & -> & Hr & _).
  assert (Hh : ~ missing_or_empty (stored st state "homeserverUrl"))
    by (apply Hr; set_solver).
  destruct (stored st state "homeserverUrl") as [hs|] eqn:Ehs;
    [|exfalso; apply Hh; now left].
  exists code, state, (stored_params_object st state parsed), response, hs.
  assert (Hget : forall k v, get q k = JsString v -> get q k <> JsUndefined ->
                             q !! k = Some (JsString v)).
  { unfold get. intros k v. destruct (q !! k); simpl; congruence. }
  refine (conj _ (conj _ (conj _ (conj Hg (conj Ehs (conj _ (conj _ eq_refl))))))).
  - apply Hget; [exact Hc|congruence].
  - apply Hget; [exact Hs|congruence].
  - now rewrite Hret.
  - rewrite (get_stored_required st state parsed "homeserverUrl"), Ehs;
      [reflexivity|set_solver].
  - apply get_stored_identity.
Qed.

(** C10: [completeOidcLogin] leaves the session storage as it found it,
    whether it succeeds or throws, and so does retrieval; running it again
    on the same query parameters therefore gives the same result.  The
    writes are those of [startOidcLogin], after which the entries of the
    generated state are in the storage. *)
Theorem C10_completion_leaves_storage (q : gmap string value) (st : gmap string string) :
  (completeOidcLogin q st).2 = st
  /\ (forall state, (retrieveAuthorizationParams state st).2 = st)
  /\ completeOidcLogin q (completeOidcLogin q st).2 = completeOidcLogin q st
  /\ (forall origin cfg clientId homeserverUrl ids,
        let ap := generateAuthorizationParams origin in
        let st' := (startOidcLogin origin cfg clientId homeserverUrl ids st).2 in
        stored st' (state ap) "nonce" = Some (nonce ap)
        /\ stored st' (state ap) "redirectUri" = Some (redirectUri ap)
        /\ stored st' (state ap) "codeVerifier" = Some (codeVerifier ap)
        /\ stored st' (state ap) "clientId" = Some clientId
        /\ stored st' (state ap) "homeserverUrl" = Some homeserverUrl
        /\ stored st' (state ap) "delegatedAuthConfig"
           = Some (JSON_stringify (JsObject cfg))).
Proof.
  split; [apply completeOidcLogin_storage|].
  split; [intros; apply retrieve_storage|].
  split; [now rewrite completeOidcLogin_storage|].
  intros origin cfg clientId homeserverUrl ids ap st'. subst st'.
  unfold startOidcLogin, bind. fold ap. rewrite store_unfold. simpl.
  apply stored_after_store_required.
Qed.


End Facts.

(** *** Closed instances at the reference builtins *)

#[local] Existing Instance RefJson.reference.

Lemma C5_query_parameter_validation_witness :
  getCodeAndStateFromQueryParams sample_query = Return ("c0de", "s1")
  /\ completeOidcLogin sample_query sample_storage =
     (let* stored := retrieveAuthorizationParams "s1" in
      let* response := lift (awaitGrant "c0de" stored) in
      ret {| res_homeserverUrl := get stored "homeserverUrl";
             res_identityServerUrl := get stored "identityServerUrl";
             res_accessToken := access_token response |}) sample_storage.
Proof.
  apply (proj2 (C5_query_parameter_validation
                  sample_query sample_storage)
               "c0de" "s1");
    first [reflexivity | discriminate].
Defined.

Lemma C6_stored_parameter_validation_witness :
  (retrieveAuthorizationParams "s1" sample_storage).1
  = Return (stored_params_object sample_storage "s1" (JsObject sample_config)).
Proof.
  apply (proj1 (proj2 (proj2 (C6_stored_parameter_validation
                  "s1" sample_storage)))).
  exists (RefJson.stringify (JsObject sample_config)), (JsObject sample_config).
  split; [reflexivity|]. split; [discriminate|].
  split; [vm_compute; reflexivity|]. split; [reflexivity|].
  split; [|reflexivity].
  unfold requiredStringProperties. intros k.
  rewrite !elem_of_cons, elem_of_nil.
  intros [->|[->|[->|[->|[->|[]]]]]] [Hm|Hm]; vm_compute in Hm; discriminate.
Defined.

(** C6, as stated, fails: with the nonce absent and a configuration text
    that is not JSON, retrieval throws the parser's [SyntaxError], not
    [StoredParamsNotFound]. *)
Lemma C6_stored_parameter_validation_counterexample :
  stored malformed_storage "s1" "redirectUri" = None
  /\ (retrieveAuthorizationParams 
        "s1" malformed_storage).1 = Throw SyntaxError
  /\ ~ ((retrieveAuthorizationParams 
          "s1" malformed_storage).1 = Throw (OidcError StoredParamsNotFound)
        <-> ((exists k, k ∈ requiredStringProperties
                       /\ missing_or_empty (stored malformed_storage "s1" k))
            \/ stored malformed_storage "s1" "delegatedAuthConfig" = None)).
Proof.
  assert (E : (retrieveAuthorizationParams 
                 "s1" malformed_storage).1 = Throw SyntaxError)
    by (vm_compute; reflexivity).
  split; [vm_compute; reflexivity|]. split; [exact E|].
  rewrite E. intros [_ Hback].
  assert (Hthrow : @Throw (gmap string value) SyntaxError
                   = Throw (OidcError StoredParamsNotFound)); [|discriminate].
  apply Hback. left. exists "redirectUri". split; [set_solver|].
  left. vm_compute. reflexivity.
Qed.

Lemma C9_empty_required_value_witness :
  (retrieveAuthorizationParams "s1"
     (<[storage_key "s1" "nonce" := ""]> sample_storage)).1
  = Throw (OidcError StoredParamsNotFound).
Proof.
  apply (proj1 (proj2 (C9_empty_required_value
                  "s1"
                  (<[storage_key "s1" "nonce" := ""]> sample_storage) "nonce"
                  ltac:(set_solver) ltac:(vm_compute; reflexivity)))).
  intros (text & Ht & _ & Hp). vm_compute in Ht. injection Ht as <-.
  vm_compute in Hp. discriminate.
Defined.

(** C9, as stated, fails: the nonce is stored as the empty string, yet the
    configuration text is not JSON and retrieval throws [SyntaxError]. *)
Lemma C9_empty_required_value_counterexample :
  stored malformed_storage "s1" "nonce" = Some ""
  /\ (retrieveAuthorizationParams 
        "s1" malformed_storage).1 = Throw SyntaxError
  /\ (retrieveAuthorizationParams 
        "s1" malformed_storage).1 <> Throw (OidcError StoredParamsNotFound).
Proof.
  assert (E : (retrieveAuthorizationParams 
                 "s1" malformed_storage).1 = Throw SyntaxError)
    by (vm_compute; reflexivity).
  split; [vm_compute; reflexivity|]. split; [exact E|].
  rewrite E. discriminate.
Qed.

Lemma C7_store_retrieve_round_trip_witness :
  exists params,
    (retrieveAuthorizationParams "s1" sample_storage).1 = Return params
    /\ get params "nonce" = JsString "n1"
    /\ get params "homeserverUrl" = JsString "https://hs.example"
    /\ get params "identityServerUrl" = JsString "https://is.example".
Proof.
  assert (Hround : JSON_parse (JSON_stringify (JsObject sample_config))
                   = Some (JsObject sample_config)) by (vm_compute; reflexivity).
  assert (Hempty : JSON_parse "" = None) by reflexivity.
  assert (H1 : nonce sample_params <> "") by (simpl; discriminate).
  assert (H2 : redirectUri sample_params <> "") by (simpl; discriminate).
  assert (H3 : codeVerifier sample_params <> "") by (simpl; discriminate).
  assert (H4 : "client" <> "") by discriminate.
  assert (H5 : "https://hs.example" <> "") by discriminate.
  destruct (C7_store_retrieve_round_trip
              sample_params sample_config "client" "https://hs.example"
              (Some "https://is.example") ∅ H1 H2 H3 H4 H5 Hempty Hround)
    as (_ & params & Hret & Hn & _ & _ & _ & Hh & _ & Hi & _).
  exists params. split; [exact Hret|]. split; [exact Hn|]. split; [exact Hh|].
  apply Hi; [reflexivity|discriminate].
Defined.

(** C7, as stated, fails: no identity server is supplied, the storage
    already holds one for the state, and retrieval returns that one
    rather than [undefined]. *)
Lemma C7_store_retrieve_round_trip_counterexample :
  let st' := (storeAuthorizationParams sample_params sample_config
                "client" "https://hs.example" None leftover_storage).2 in
  exists params,
    (retrieveAuthorizationParams "s1" st').1 = Return params
    /\ get params "identityServerUrl" = JsString "https://old.example"
    /\ get params "identityServerUrl" <> JsUndefined.
Proof.
  intros st'. subst st'. rewrite store_unfold. cbn [snd].
  set (st' := storage_after_store sample_params sample_config "client"
                "https://hs.example" None leftover_storage).
  assert (E : get (stored_params_object st' "s1" (JsObject sample_config))
                  "identityServerUrl" = JsString "https://old.example").
  { rewrite get_stored_identity. subst st'.
    rewrite (stored_after_store_identity sample_params). 
    vm_compute. reflexivity. }
  exists (stored_params_object st' "s1" (JsObject sample_config)).
  split; [|split; [exact E|rewrite E; discriminate]].
  apply (store_retrieve_succeeds sample_params sample_config "client"
                "https://hs.example" None leftover_storage).
  all: try (cbn [nonce redirectUri codeVerifier sample_params]; discriminate).
  - reflexivity.
  - vm_compute. reflexivity.
Qed.

Lemma C8_completion_result_witness :
  exists code state params response homeserverUrl,
    sample_query !! "code" = Some (JsString code)
    /\ sample_query !! "state" = Some (JsString state)
    /\ (retrieveAuthorizationParams 
          state sample_storage).1 = Return params
    /\ completeAuthorizationCodeGrant code params
       = inr response
    /\ stored sample_storage state "homeserverUrl" = Some homeserverUrl
    /\ JsString "https://hs.example" = JsString homeserverUrl
    /\ JsString "https://is.example"
       = nullish_to_undefined (stored sample_storage state "identityServerUrl")
    /\ "token-for-c0de" = access_token response.
Proof.
  apply (C8_completion_result 
           sample_query sample_storage
           {| res_homeserverUrl := JsString "https://hs.example";
              res_identityServerUrl := JsString "https://is.example";
              res_accessToken := "token-for-c0de" |}).
  vm_compute. reflexivity.
Defined.

End OidcProofs.

(** * The login glue and the rest of session storage *)

Module OidcExtra.
Import Js Oidc OidcSpec OidcProofs OidcFrame.

Lemma underscore_in_app s n : no_underscore (s +:+ String "_" n) = false.
Proof.
  induction s as [|c s IH]; simpl; [reflexivity|].
  rewrite IH. apply andb_false_r.
Qed.

Lemma app_underscore_inj s1 s2 n1 n2 :
  no_underscore n1 = true -> no_underscore n2 = true ->
  s1 +:+ String "_" n1 = s2 +:+ String "_" n2 -> s1 = s2 /\ n1 = n2.
Proof.
  intros H1 H2. revert s2.
  induction s1 as [|c s1 IH]; intros [|c' s2]; simpl; intros E.
  - injection E as ->. auto.
  - injection E as <- ->. rewrite underscore_in_app in H1. discriminate.
  - injection E as -> <-. rewrite underscore_in_app in H2. discriminate.
  - injection E as <- E. destruct (IH _ E) as [-> ->]. auto.
Qed.

Lemma parameter_names_no_underscore n :
  n ∈ parameter_names -> no_underscore n = true.
Proof.
  unfold parameter_names. rewrite !elem_of_cons, elem_of_nil.
  intros [->|[->|[->|[->|[->|[->|[->|[]]]]]]]]; reflexivity.
Qed.

(** Keys of parameters are equal only for the same state and the same
    name, whatever characters the state holds. *)
Lemma storage_key_inj_state s1 s2 n1 n2 :
  n1 ∈ parameter_names -> n2 ∈ parameter_names ->
  storage_key s1 n1 = storage_key s2 n2 -> s1 = s2 /\ n1 = n2.
Proof.
  intros H1 H2 E. unfold storage_key in E.
  apply (String.app_inj "oidc_") in E.
  apply app_underscore_inj; auto using parameter_names_no_underscore.
Qed.

Section Frame.
Context {builtins : Builtins}.

Lemma written_keys_names state ids k :
  k ∈ written_keys state ids ->
  exists n, n ∈ parameter_names /\ k = storage_key state n.
Proof.
  unfold written_keys. intros Hk. apply list_elem_of_In, in_map_iff in Hk
    as (n & <- & Hn).
  exists n. split; [|reflexivity]. apply list_elem_of_In.
  apply in_app_or in Hn as [Hn|Hn].
  - unfold parameter_names. simpl in *. intuition.
  - destruct ids as [url|]; [destruct (truthy (JsString url))|];
      simpl in Hn; intuition. subst. unfold parameter_names. simpl. auto 10.
Qed.

(** The storage after a store, key by key. *)
Lemma store_lookup_frame ap cfg clientId homeserverUrl ids st k :
  k ∉ written_keys (state ap) ids ->
  (storeAuthorizationParams ap cfg clientId homeserverUrl ids st).2 !! k = st !! k.
Proof.
  rewrite store_unfold. unfold written_keys, storage_after_store. cbn [snd].
  intros Hk.
  assert (Hn : forall n,
             In n (["nonce"; "redirectUri"; "codeVerifier"; "clientId";
                    "delegatedAuthConfig"; "homeserverUrl"]
                   ++ match ids with
                      | Some url => if truthy (JsString url)
                                    then ["identityServerUrl"] else []
                      | None => []
                      end) ->
             storage_key (state ap) n <> k).
  { intros n Hin <-. apply Hk, list_elem_of_In, in_map, Hin. }
  assert (H6 : forall n, In n ["nonce"; "redirectUri"; "codeVerifier"; "clientId";
                               "delegatedAuthConfig"; "homeserverUrl"] ->
                         storage_key (state ap) n <> k)
    by (intros n Hin; apply Hn, in_or_app; auto).
  assert (Hbase :
    (<[storage_key (state ap) "homeserverUrl" := homeserverUrl]>
     (<[storage_key (state ap) "delegatedAuthConfig" := JSON_stringify (JsObject cfg)]>
      (<[storage_key (state ap) "clientId" := clientId]>
       (<[storage_key (state ap) "codeVerifier" := codeVerifier ap]>
        (<[storage_key (state ap) "redirectUri" := redirectUri ap]>
         (<[storage_key (state ap) "nonce" := nonce ap]> st)))))) !! k = st !! k).
  { rewrite !lookup_insert_ne; [reflexivity|..]; apply H6; simpl; auto 10. }
  destruct ids as [url|]; [|exact Hbase].
  simpl in Hn. destruct (String.eqb url "") eqn:E; simpl in Hn; [exact Hbase|].
  rewrite lookup_insert_ne; [exact Hbase|].
  apply Hn. auto 10.
Qed.



(** Retrieval looks at the seven entries of its state and at nothing
    else in the storage. *)
Theorem retrieve_reads_own_entries state st1 st2 :
  same_entries state st1 st2 ->
  (retrieveAuthorizationParams state st1).1
  = (retrieveAuthorizationParams state st2).1.
Proof.
  unfold same_entries, parameter_names. rewrite !Forall_cons.
  intros (E1 & E2 & E3 & E4 & E5 & E6 & E7 & _).
  rewrite !retrieve_unfold. cbn [fst]. unfold stored_params_object.
  now rewrite E1, E2, E3, E4, E5, E6, E7.
Qed.

Lemma store_other_state ap cfg clientId homeserverUrl ids st state' :
  state' <> state ap ->
  same_entries state'
    (storeAuthorizationParams ap cfg clientId homeserverUrl ids st).2 st.
Proof.
  intros Hne. unfold same_entries. apply Forall_forall. intros n Hn.
  unfold stored. apply store_lookup_frame. intros Hk.
  apply written_keys_names in Hk as (n' & Hn' & E).
  apply storage_key_inj_state in E as [E _]; auto.
Qed.

(** Logins do not interfere: storing the parameters of one state changes
    no entry of another state, whatever the two state strings are, and so
    retrieval for the other state gives what it gave before. *)
Theorem store_isolates_states ap cfg clientId homeserverUrl ids st state' :
  state' <> state ap ->
  (forall name, name ∈ parameter_names ->
     stored (storeAuthorizationParams ap cfg clientId homeserverUrl ids st).2
            state' name
     = stored st state' name)
  /\ (retrieveAuthorizationParams state'
        (storeAuthorizationParams ap cfg clientId homeserverUrl ids st).2).1
     = (retrieveAuthorizationParams state' st).1.
Proof.
  intros Hne.
  pose proof (store_other_state ap cfg clientId homeserverUrl ids st state' Hne)
    as Hsame.
  split; [|now apply retrieve_reads_own_entries].
  intros name Hn. unfold same_entries in Hsame.
  rewrite Forall_forall in Hsame. now apply Hsame.
Qed.

Lemma stored_with_identity_ne state o st n :
  n <> "identityServerUrl" ->
  stored (with_identity state o st) state n = stored st state n.
Proof.
  intros Hn. unfold stored, with_identity.
  destruct o; [rewrite lookup_insert_ne|rewrite lookup_delete_ne];
    auto using storage_key_ne.
Qed.

Lemma stored_with_identity_eq state o st :
  stored (with_identity state o st) state "identityServerUrl" = o.
Proof.
  unfold stored, with_identity.
  destruct o; [apply lookup_insert_eq|apply lookup_delete_eq].
Qed.

Lemma stored_object_with_identity state o st parsed :
  stored_params_object (with_identity state o st) state parsed
  = <["identityServerUrl" := nullish_to_undefined o]>
      (stored_params_object st state parsed).
Proof.
  unfold stored_params_object.
  rewrite stored_with_identity_eq, !stored_with_identity_ne by discriminate.
  apply map_eq. intros k.
  destruct (decide (k = "identityServerUrl")) as [->|Hk].
  - now rewrite lookup_insert_eq, !lookup_insert_ne, lookup_insert_eq
      by discriminate.
  - rewrite (lookup_insert_ne _ "identityServerUrl" k) by congruence.
    destruct (decide (k = "nonce")) as [->|H1];
      [now rewrite !lookup_insert_eq|rewrite !(lookup_insert_ne _ "nonce" k) by congruence].
    destruct (decide (k = "redirectUri")) as [->|H2];
      [now rewrite !lookup_insert_eq|rewrite !(lookup_insert_ne _ "redirectUri" k) by congruence].
    destruct (decide (k = "codeVerifier")) as [->|H3];
      [now rewrite !lookup_insert_eq|rewrite !(lookup_insert_ne _ "codeVerifier" k) by congruence].
    destruct (decide (k = "clientId")) as [->|H4];
      [now rewrite !lookup_insert_eq|rewrite !(lookup_insert_ne _ "clientId" k) by congruence].
    destruct (decide (k = "homeserverUrl")) as [->|H5];
      [now rewrite !lookup_insert_eq|rewrite !(lookup_insert_ne _ "homeserverUrl" k) by congruence].
    now rewrite !(lookup_insert_ne _ "identityServerUrl" k) by congruence.
Qed.

(** The identity-server entry is optional and unchecked: setting it to
    any string, the empty one included, or removing it never changes
    whether retrieval succeeds nor the error it throws; on success only
    the [identityServerUrl] property of the result follows the entry. *)
Theorem identity_entry_never_rejected state (o : option string) st :
  (forall e,
     (retrieveAuthorizationParams state (with_identity state o st)).1 = Throw e
     <-> (retrieveAuthorizationParams state st).1 = Throw e)
  /\ (forall params,
        (retrieveAuthorizationParams state st).1 = Return params ->
        (retrieveAuthorizationParams state (with_identity state o st)).1
        = Return (<["identityServerUrl" := nullish_to_undefined o]> params)).
Proof.
  rewrite !retrieve_unfold. cbn [fst].
  rewrite stored_with_identity_ne by discriminate.
  destruct (parseDelegatedAuthConfig (stored st state "delegatedAuthConfig"))
    as [parsed|e0]; [|split; [tauto|discriminate]].
  rewrite stored_object_with_identity.
  pose proof (validate_stored_Return_iff (with_identity state o st) state parsed)
    as H1.
  pose proof (validate_stored_Return_iff st state parsed) as H2.
  rewrite stored_object_with_identity in H1.
  assert (Hreq : (forall k, k ∈ requiredStringProperties ->
                    ~ missing_or_empty (stored (with_identity state o st) state k))
                 <-> (forall k, k ∈ requiredStringProperties ->
                        ~ missing_or_empty (stored st state k))).
  { split; intros Hr k Hk; specialize (Hr k Hk);
      rewrite stored_with_identity_ne in *; auto;
      intros ->; revert Hk; unfold requiredStringProperties;
      rewrite !elem_of_cons, elem_of_nil; intuition discriminate. }
  destruct (validate_cases (stored_params_object st state parsed)) as [E|E];
    destruct (validate_cases
                (<["identityServerUrl" := nullish_to_undefined o]>
                   (stored_params_object st state parsed))) as [E'|E'];
    rewrite E, E'.
  - split; [split; discriminate|]. now intros params [= <-].
  - exfalso. apply H2 in E. rewrite <- Hreq in E. apply H1 in E. congruence.
  - exfalso. apply H1 in E'. rewrite Hreq in E'. apply H2 in E'. congruence.
  - split; [tauto|discriminate].
Qed.

Lemma get_JsString (q : gmap string value) k s :
  get q k = JsString s <-> q !! k = Some (JsString s).
Proof.
  unfold get. destruct (q !! k) as [v|]; simpl; split; try discriminate;
    congruence.
Qed.

Lemma start_unfold origin cfg clientId homeserverUrl ids st :
  startOidcLogin origin cfg clientId homeserverUrl ids st
  = (Return (generateAuthorizationUrl (get cfg "authorizationEndpoint") clientId
               (generateAuthorizationParams origin)),
     storage_after_store (generateAuthorizationParams origin) cfg clientId
       homeserverUrl ids st).
Proof.
  unfold startOidcLogin, bind. now rewrite store_unfold.
Qed.



(** Every way [completeOidcLogin] fails, in the order the checks run: the
    query check first; then retrieval for the state of the query, whose
    error comes out unchanged; then the exchange, whose rejection comes
    out unchanged and which is reached only with parameters that passed
    validation. *)
Theorem completeOidcLogin_failures q st e :
  (completeOidcLogin q st).1 = Throw e
  <-> (e = OidcError InvalidQueryParameters
       /\ (absent_empty_or_not_string q "code"
           \/ absent_empty_or_not_string q "state"))
      \/ (exists code state,
            q !! "code" = Some (JsString code) /\ code <> ""
            /\ q !! "state" = Some (JsString state) /\ state <> ""
            /\ ((retrieveAuthorizationParams state st).1 = Throw e
                \/ exists params msg,
                     (retrieveAuthorizationParams state st).1 = Return params
                     /\ completeAuthorizationCodeGrant code params = inl msg
                     /\ e = GrantError msg)).
Proof.
  rewrite !absent_empty_or_not_string_iff.
  destruct (getCodeAndState_cases q)
    as [E|(code & state & Hc & Hcn & Hs & Hsn & E)].
  - rewrite (completeOidcLogin_invalid _ _ E). cbn [fst].
    apply getCodeAndState_Throw_iff in E. split.
    + intros [= <-]. left. split; [reflexivity|].
      destruct (nonempty_string_dec (get q "code")); [|auto].
      destruct (nonempty_string_dec (get q "state")); [|auto]. tauto.
    + intros [[-> _]|(c & s' & Hqc & Hcn & Hqs & Hsn & _)]; [reflexivity|].
      exfalso. apply E. apply get_JsString in Hqc, Hqs.
      split; [exists c|exists s']; auto.
  - rewrite (completeOidcLogin_continue _ _ _ _ E).
    assert (Hvalid : ~ (~ nonempty_string (get q "code")
                        \/ ~ nonempty_string (get q "state"))).
    { intros [H|H]; apply H; [exists code|exists state]; auto. }
    unfold bind at 1.
    destruct (retrieveAuthorizationParams state st) as [o st'] eqn:Er.
    assert (Hsame : forall c s', q !! "code" = Some (JsString c) ->
                      q !! "state" = Some (JsString s') -> c = code /\ s' = state).
    { intros c s' Hqc Hqs. apply get_JsString in Hqc, Hqs. split; congruence. }
    destruct o as [params|e0]; cbn [fst].
    + unfold bind, lift, awaitGrant, ret.
      destruct (completeAuthorizationCodeGrant code params) as [msg|resp] eqn:Eg;
        cbn [fst]; split.
      * intros [= <-]. right. exists code, state.
        repeat split; auto; try now apply get_JsString.
        right. exists params, msg. rewrite Er. auto.
      * intros [[_ H]|(c & s' & Hqc & _ & Hqs & _ & H)]; [tauto|].
        destruct (Hsame c s' Hqc Hqs) as [-> ->]. rewrite Er in H. cbn [fst] in H.
        destruct H as [H|(p & m & [= <-] & Hg & ->)]; [discriminate|].
        congruence.
      * discriminate.
      * intros [[_ H]|(c & s' & Hqc & _ & Hqs & _ & H)]; [tauto|].
        destruct (Hsame c s' Hqc Hqs) as [-> ->]. rewrite Er in H. cbn [fst] in H.
        destruct H as [H|(p & m & [= <-] & Hg & ->)]; [discriminate|].
        congruence.
    + split.
      * intros [= <-]. right. exists code, state.
        repeat split; auto; try now apply get_JsString.
        left. now rewrite Er.
      * intros [[_ H]|(c & s' & Hqc & _ & Hqs & _ & H)]; [tauto|].
        destruct (Hsame c s' Hqc Hqs) as [-> ->]. rewrite Er in H. cbn [fst] in H.
        destruct H as [H|(p & m & H & _)]; [congruence|discriminate].
Qed.

(** A callback whose state is not the one of the login just started, and
    for which the storage holds nothing, is turned down with
    [StoredParamsNotFound]: the parameters stored at the start are not
    used for another state. *)
Theorem unknown_state_is_rejected
    origin cfg clientId homeserverUrl ids st q code state' :
  state' <> state (generateAuthorizationParams origin) ->
  no_entries state' st ->
  code <> "" -> state' <> "" ->
  q !! "code" = Some (JsString code) ->
  q !! "state" = Some (JsString state') ->
  (completeOidcLogin q
     (startOidcLogin origin cfg clientId homeserverUrl ids st).2).1
  = Throw (OidcError StoredParamsNotFound).
Proof.
  intros Hne Hnone Hcode Hstate Hqc Hqs.
  rewrite start_unfold. cbn [snd].
  set (ap := generateAuthorizationParams origin) in *.
  rewrite (completeOidcLogin_continue q _ code state')
    by (apply getCodeAndState_Return; auto; now apply get_JsString).
  pose proof (store_other_state ap cfg clientId homeserverUrl ids st state' Hne)
    as Hsame.
  rewrite store_unfold in Hsame. cbn [snd] in Hsame.
  set (st' := storage_after_store ap cfg clientId homeserverUrl ids st) in *.
  assert (Hret : (retrieveAuthorizationParams state' st').1
                 = Throw (OidcError StoredParamsNotFound)).
  { rewrite (retrieve_reads_own_entries state' st' st Hsame).
    unfold no_entries, parameter_names in Hnone. rewrite !Forall_cons in Hnone.
    destruct Hnone as (E1 & _ & _ & _ & E5 & _).
    apply retrieve_NotFound_iff. exists JsUndefined. split.
    - apply parse_config_Return_iff. left. split; [left; exact E5|reflexivity].
    - left. exists "nonce". split; [unfold requiredStringProperties; set_solver|].
      left. exact E1. }
  unfold bind at 1.
  destruct (retrieveAuthorizationParams state' st') as [o st''].
  cbn [fst] in Hret. subst o. reflexivity.
Qed.

(** Of the query parameters only [code] and [state] are looked at:
    whatever else the callback carries changes nothing. *)
Theorem query_reads_code_and_state (q q' : gmap string value) st :
  q !! "code" = q' !! "code" -> q !! "state" = q' !! "state" ->
  completeOidcLogin q st = completeOidcLogin q' st.
Proof.
  intros Hc Hs. unfold completeOidcLogin, getCodeAndStateFromQueryParams, get.
  now rewrite Hc, Hs.
Qed.

(** [storeAuthorizationParams] checks nothing: given an empty nonce,
    redirect URI, code verifier, client id or home-server URL it stores
    it without complaint, and the login can then not be completed:
    retrieval for that state never succeeds, and throws
    [StoredParamsNotFound] unless [JSON.parse] rejects the text that
    [JSON.stringify] gave for the configuration. *)
Theorem store_does_not_validate ap cfg clientId homeserverUrl ids st :
  nonce ap = "" \/ redirectUri ap = "" \/ codeVerifier ap = ""
  \/ clientId = "" \/ homeserverUrl = "" ->
  (storeAuthorizationParams ap cfg clientId homeserverUrl ids st).1 = Return tt
  /\ (forall params,
        (retrieveAuthorizationParams (state ap)
           (storeAuthorizationParams ap cfg clientId homeserverUrl ids st).2).1
        <> Return params)
  /\ (~ malformed_config (Some (JSON_stringify (JsObject cfg))) ->
      (retrieveAuthorizationParams (state ap)
         (storeAuthorizationParams ap cfg clientId homeserverUrl ids st).2).1
      = Throw (OidcError StoredParamsNotFound)).
Proof.
  intros Hempty. rewrite store_unfold. cbn [fst snd].
  split; [reflexivity|].
  set (st' := storage_after_store ap cfg clientId homeserverUrl ids st).
  destruct (stored_after_store_required ap cfg clientId homeserverUrl ids st)
    as (En & Er & Ev & Ec & Eh & Ecfg). fold st' in En, Er, Ev, Ec, Eh, Ecfg.
  assert (Hmiss : exists k, k ∈ requiredStringProperties
                            /\ missing_or_empty (stored st' (state ap) k)).
  { unfold requiredStringProperties, missing_or_empty.
    destruct Hempty as [E|[E|[E|[E|E]]]]; rewrite E in *;
      [exists "nonce"|exists "redirectUri"|exists "codeVerifier"
      |exists "clientId"|exists "homeserverUrl"];
      (split; [set_solver|auto]). }
  assert (Hno : forall params,
             (retrieveAuthorizationParams (state ap) st').1 <> Return params).
  { intros params Hret. apply retrieve_Return_iff in Hret
      as (parsed & _ & _ & Hreq & _).
    destruct Hmiss as (k & Hk & Hm). exact (Hreq k Hk Hm). }
  split; [exact Hno|].
  intros Hwell.
  destruct (retrieve_cases (state ap) st') as [[params E]|[E|E]];
    [now destruct (Hno params)|exact E|].
  apply retrieve_SyntaxError_iff in E. rewrite Ecfg in E. contradiction.
Qed.

End Frame.

#[local] Existing Instance RefJson.reference.

Lemma retrieve_reads_own_entries_witness :
  (retrieveAuthorizationParams "s1" (<["theme" := "dark"]> sample_storage)).1
  = (retrieveAuthorizationParams "s1" sample_storage).1.
Proof.
  apply (retrieve_reads_own_entries "s1" (<["theme" := "dark"]> sample_storage)
           sample_storage).
  unfold same_entries, parameter_names.
  repeat (apply Forall_cons; split; [vm_compute; reflexivity|]).
  apply Forall_nil_2.
Defined.

Lemma store_isolates_states_witness :
  (forall name, name ∈ parameter_names ->
     stored (storeAuthorizationParams sample_params sample_config "client"
               "https://hs.example" None sample_storage).2
            "s1_nonce" name
     = stored sample_storage "s1_nonce" name)
  /\ (retrieveAuthorizationParams "s1_nonce"
        (storeAuthorizationParams sample_params sample_config "client"
           "https://hs.example" None sample_storage).2).1
     = (retrieveAuthorizationParams "s1_nonce" sample_storage).1.
Proof.
  apply (store_isolates_states sample_params sample_config "client"
           "https://hs.example" None sample_storage "s1_nonce").
  simpl. discriminate.
Defined.


Lemma unknown_state_is_rejected_witness :
  (completeOidcLogin
     (<["code" := JsString "c0de"]> (<["state" := JsString "other"]> ∅))
     (startOidcLogin "https://app.example" sample_config "client"
        "https://hs.example" None ∅).2).1
  = Throw (OidcError StoredParamsNotFound).
Proof.
  apply (unknown_state_is_rejected "https://app.example" sample_config "client"
           "https://hs.example" None ∅
           (<["code" := JsString "c0de"]> (<["state" := JsString "other"]> ∅))
           "c0de" "other").
  - simpl. discriminate.
  - unfold no_entries, parameter_names.
    repeat (apply Forall_cons; split; [reflexivity|]). apply Forall_nil_2.
  - discriminate.
  - discriminate.
  - reflexivity.
  - reflexivity.
Defined.

Lemma query_reads_code_and_state_witness :
  completeOidcLogin noisy_query sample_storage
  = completeOidcLogin sample_query sample_storage.
Proof.
  apply (query_reads_code_and_state noisy_query sample_query sample_storage);
    reflexivity.
Defined.

Lemma store_does_not_validate_witness :
  (storeAuthorizationParams sample_params sample_config "client" "" None ∅).1
  = Return tt
  /\ (forall params,
        (retrieveAuthorizationParams (state sample_params)
           (storeAuthorizationParams sample_params sample_config "client" ""
              None ∅).2).1
        <> Return params)
  /\ (~ malformed_config (Some (JSON_stringify (JsObject sample_config))) ->
      (retrieveAuthorizationParams (state sample_params)
         (storeAuthorizationParams sample_params sample_config "client" ""
            None ∅).2).1
      = Throw (OidcError StoredParamsNotFound)).
Proof.
  apply (store_does_not_validate sample_params sample_config "client" "" None ∅).
  right. right. right. right. reflexivity.
Defined.

End OidcExtra.

(** * Properties of the session lock *)

Module LockProofs.
Import SessionLock LockSpec.

Lemma lookup_notify_others self (m : gmap nat Instance) j :
  notify_others self m !! j
  = (fun inst => if decide (j = self) then inst else set_inbox true inst) <$> m !! j.
Proof.
  unfold notify_others. rewrite map_lookup_imap.
  destruct (m !! j); reflexivity.
Qed.

Lemma commit_lookup_self w i r : instances (commit w i r) !! i = Some r.1.1.
Proof. unfold commit. simpl. apply lookup_insert_eq. Qed.

Lemma commit_lookup_other w i r j :
  j <> i ->
  instances (commit w i r) !! j
  = (fun inst => if r.2 then set_inbox true inst else inst) <$> instances w !! j.
Proof.
  intros Hne. unfold commit. simpl. rewrite lookup_insert_ne by congruence.
  destruct r.2.
  - rewrite lookup_notify_others. destruct (instances w !! j); simpl; [|reflexivity].
    destruct (decide (j = i)); [contradiction|reflexivity].
  - destruct (instances w !! j); reflexivity.
Qed.

(** An instance other than the one taking the turn changes at most in its
    inbox. *)
Lemma commit_other_inv w i r j inst' :
  j <> i -> instances (commit w i r) !! j = Some inst' ->
  exists inst, instances w !! j = Some inst
               /\ (inst' = inst \/ inst' = set_inbox true inst).
Proof.
  intros Hne. rewrite commit_lookup_other by exact Hne.
  destruct (instances w !! j) as [inst|]; simpl; [|discriminate].
  intros [= <-]. exists inst. split; [reflexivity|]. destruct r.2; auto.
Qed.


Lemma deliver_view P w e i tr :
  trigger_of e = Some (i, tr) -> StepView P w e (deliver P i tr w).
Proof.
  intros Ha. unfold deliver.
  destruct (instances w !! i) as [inst|] eqn:E; [|constructor].
  destruct (alive inst) eqn:Hal; [|constructor].
  now apply view_turn.
Qed.

Lemma step_view P w e : StepView P w e (step P w e).
Proof.
  destruct e as [i d|i|i|i| |i|i]; simpl;
    try (apply deliver_view; reflexivity).
  - destruct (instances w !! i) eqn:E; [constructor|now constructor].
  - destruct (quiescent w) eqn:E; [now constructor|constructor].
Qed.

Lemma trigger_actor e i tr : trigger_of e = Some (i, tr) -> actor e = Some i.
Proof. destruct e; simpl; intros [= <- <-] || discriminate; reflexivity. Qed.

Lemma quiescent_lookup w i inst :
  quiescent w = true -> instances w !! i = Some inst -> busy (now w) inst = false.
Proof.
  unfold quiescent. intros Hq Hi. apply bool_decide_eq_true in Hq.
  exact (Hq i inst Hi).
Qed.

Lemma run_app P w l1 l2 : run P w (l1 ++ l2) = run P (run P w l1) l2.
Proof. unfold run. apply fold_left_app. Qed.

Lemma run_snoc P w l e : run P w (l ++ [e]) = step P (run P w l) e.
Proof. now rewrite run_app. Qed.

Lemma run_cons P w e l : run P w (e :: l) = run P (step P w e) l.
Proof. reflexivity. Qed.



(** *** Turns of one instance *)



Ltac break_match :=
  repeat match goal with
         | |- context [match ?x with _ => _ end] => destruct x eqn:?; simpl
         end.

Ltac unfold_react :=
  unfold react, react_act, react_notify, react_fire, react_shutdown, observe,
    enter, become_holder, claim, supersede, back_off, cleanup_done; simpl.











Lemma late_set_inbox B t b inst : late B t (set_inbox b inst) <-> late B t inst.
Proof. reflexivity. Qed.


Lemma late_weaken B B' t inst : B' <= B -> late B t inst -> late B' t inst.
Proof.
  intros Hle [Hc Hr]. split.
  - intros H. specialize (Hc H). lia.
  - intros T HT. destruct (Hr T HT). split; [assumption|lia].
Qed.



Lemma guard_weaken B B' t st : B' <= B -> guard B t st -> guard B' t st.
Proof.
  intros Hle [H|(l & Hl & Hb)]; [left; lia|right; exists l; split; [exact Hl|lia]].
Qed.

Lemma guarded_weaken B B' ex w : B' <= B -> guarded B ex w -> guarded B' ex w.
Proof.
  intros Hle (Hg & Hwf & Hl). split; [eauto using guard_weaken|].
  split; [exact Hwf|]. intros i inst Hex Hi. eauto using late_weaken.
Qed.


Lemma internal_trigger e i tr :
  internal e = true -> trigger_of e = Some (i, tr) ->
  tr = OnAct \/ tr = OnNotify \/ tr = OnFire.
Proof. destruct e; simpl; try discriminate; intros _ [= <- <-]; auto. Qed.

Lemma own_request_not_foreign t W s st :
  requestRecord st = Some {| requesterId := W; requestedAt := s |} ->
  foreign_request t W st = false.
Proof. unfold foreign_request. intros ->. simpl. now rewrite Nat.eqb_refl. Qed.

Lemma no_request_not_foreign t W st :
  requestRecord st = None -> foreign_request t W st = false.
Proof. unfold foreign_request. now intros ->. Qed.

Lemma heartbeat_vacant h t st :
  heartbeat_is h st -> lock_vacant t st = (STALE_TIMEOUT <=? t - h).
Proof. intros (l & Hl & <-). unfold lock_vacant. now rewrite Hl. Qed.

(** A turn of the waiter keeps it on its path. *)
Lemma waiter_turn P h s W t st inst tr :
  0 < P -> h <= s < h + STALE_TIMEOUT ->
  tr = OnAct \/ tr = OnNotify \/ tr = OnFire ->
  alive inst = true -> inbox inst = false ->
  waiter_state P h s W t st inst ->
  let r := react P t W tr st inst in
  alive r.1.1 = true /\ inbox r.1.1 = false
  /\ waiter_state P h s W t r.1.2 r.1.1.
Proof.
  intros HP Hhs Htr Hal Hib Hst.
  destruct inst as [ph al cl tm ib rs sp]. simpl in Hal, Hib. subst al ib.
  unfold waiter_state in Hst. simpl in Hst.
  destruct ph; try contradiction.
  - (* REQUESTING *)
    destruct Hst as (-> & -> & Hreq & Hh).
    destruct Htr as [-> | [-> | ->]]; simpl; unfold react_fire; simpl;
      [|repeat split; auto; tauto|destruct (tm <=? s); simpl; repeat split; auto; tauto].
    repeat split; auto.
  - (* CONFIRMING *)
    destruct Hst as (-> & -> & Hreq & Hh).
    destruct Htr as [-> | [-> | ->]]; simpl; unfold react_act, react_fire; simpl;
      [|repeat split; auto; tauto|destruct (tm <=? s); simpl; repeat split; auto; tauto].
    rewrite Hreq. simpl. rewrite Nat.eqb_refl. simpl.
    unfold waiter_state, STALE_TIMEOUT in *; simpl.
    repeat split; auto; try lia.
    exists 1. lia.
  - (* WAITING *)
    destruct Hst as (-> & Hreq & Hh & Hle & Hlt & (k & Hk & Htm)).
    destruct Htr as [-> | [-> | ->]]; simpl; unfold react_fire; simpl.
    + unfold waiter_state, STALE_TIMEOUT in *; simpl. repeat split; auto. exists k. auto.
    + unfold waiter_state, STALE_TIMEOUT in *; simpl. repeat split; auto. exists k. auto.
    + destruct (Nat.leb_spec tm t) as [Hdue|Hnot]; simpl.
      2:{ unfold waiter_state, STALE_TIMEOUT in *; simpl. repeat split; auto. exists k. auto. }
      assert (t = tm) by lia. subst t.
      unfold observe. rewrite (own_request_not_foreign _ _ _ _ Hreq).
      rewrite (heartbeat_vacant _ _ _ Hh).
      unfold STALE_TIMEOUT in *.
      destruct (Nat.leb_spec 30 (tm - h)) as [Hstale|Hfresh]; simpl.
      * unfold waiter_state, STALE_TIMEOUT in *; simpl. repeat split; auto; try lia.
        exists k. auto.
      * unfold waiter_state, STALE_TIMEOUT in *; simpl. repeat split; auto; try lia.
        exists (S k). split; [lia|]. simpl. lia.
  - (* CLAIMING *)
    destruct Hst as (-> & Hreq & Hlock & Hb & Hp).
    destruct Htr as [-> | [-> | ->]]; simpl; unfold react_act, react_fire; simpl;
      [|repeat split; auto; tauto|destruct (tm <=? t); simpl; repeat split; auto; tauto].
    rewrite Hlock. simpl. rewrite Nat.eqb_refl. simpl.
    unfold become_holder. rewrite Hreq. simpl. rewrite Nat.eqb_refl. simpl.
    unfold waiter_state, STALE_TIMEOUT in *; simpl. repeat split; auto.
    exists t. repeat split; auto; lia.
  - (* HOLDING *)
    destruct Hst as (T & -> & Hb & Hp & HT).
    destruct Htr as [-> | [-> | ->]]; simpl; unfold react_fire; simpl.
    + unfold waiter_state, STALE_TIMEOUT in *; simpl. repeat split; auto. exists T. auto.
    + unfold waiter_state, STALE_TIMEOUT in *; simpl. repeat split; auto. exists T. auto.
    + destruct (tm <=? t); simpl; unfold waiter_state, STALE_TIMEOUT in *; simpl;
        repeat split; auto; exists T; auto.
Qed.


Lemma waiter_tick P h s W t st inst :
  busy t inst = false -> alive inst = true ->
  waiter_state P h s W t st inst -> waiter_state P h s W (S t) st inst.
Proof.
  unfold busy, waiter_state. intros Hb Hal. rewrite Hal in Hb. simpl in Hb.
  destruct (phase inst); try discriminate; try contradiction.
  - apply Nat.leb_gt in Hb. intros (? & ? & ? & ? & ? & ?).
    repeat split; auto; lia.
  - intros (T & ? & ? & ? & ?). exists T. repeat split; auto; lia.
Qed.

Lemma waiter_inv_step P h s W w e :
  0 < P -> h <= s < h + STALE_TIMEOUT ->
  internal e = true ->
  waiter_inv P h s W w -> waiter_inv P h s W (step P w e).
Proof.
  intros HP Hs Hint (Hdead & inst & Hi & Hal & Hib & Hst).
  destruct (step_view P w e) as [e| Hq|i d Hnone|e i tr inst0 Htr Hi0 Hal0].
  - split; [exact Hdead|]. exists inst. auto.
  - split; [exact Hdead|]. exists inst. simpl.
    repeat split; auto.
    apply waiter_tick; auto. eapply quiescent_lookup; eauto.
  - discriminate.
  - destruct (decide (i = W)) as [->|Hne].
    2:{ rewrite (Hdead _ _ Hne Hi0) in Hal0. discriminate. }
    rewrite Hi in Hi0. injection Hi0 as <-.
    destruct (waiter_turn P h s W (now w) (store w) inst tr HP Hs
                (internal_trigger _ _ _ Hint Htr) Hal Hib Hst)
      as (Hal' & Hib' & Hst').
    split.
    + intros j inst' Hj Hlook.
      apply (commit_other_inv _ _ _ _ _ Hj) in Hlook
        as (inst0 & Hlook & [-> | ->]); simpl; eauto.
    + eexists. split; [apply commit_lookup_self|]. auto.
Qed.

Lemma waiter_inv_run P h s W w sched :
  0 < P -> h <= s < h + STALE_TIMEOUT ->
  forallb internal sched = true ->
  waiter_inv P h s W w -> waiter_inv P h s W (run P w sched).
Proof.
  intros HP Hs. revert w. induction sched as [|e l IH]; intros w Hint Hinv;
    [exact Hinv|].
  simpl in Hint. apply andb_prop in Hint as [He Hl].
  rewrite run_cons. apply IH; [exact Hl|]. now apply waiter_inv_step.
Qed.

(** The waiter's call of [acquire] puts it on its path. *)
Lemma waiter_inv_acquire P h s W w d :
  crashed_holder h s W w -> waiter_inv P h s W (step P w (Acquire W d)).
Proof.
  intros (Hnow & Hs & Hh & Hreq & Hnone & Hdead).
  simpl. rewrite Hnone. unfold enter.
  rewrite (heartbeat_vacant _ _ _ Hh), (no_request_not_foreign _ _ _ Hreq).
  destruct (Nat.leb_spec STALE_TIMEOUT (now w - h)) as [Hstale|_]; [lia|].
  split.
  - intros j inst' Hj Hlook.
    apply (commit_other_inv _ _ _ _ _ Hj) in Hlook
      as (inst0 & Hlook & [-> | ->]); simpl; eauto.
  - eexists. split; [apply commit_lookup_self|]. simpl.
    unfold waiter_state. simpl. repeat split; auto.
Qed.

Lemma waiter_inv_result P h s W w b T :
  waiter_inv P h s W w -> result w W = Some (b, T) ->
  b = true /\ h + STALE_TIMEOUT <= T < h + STALE_TIMEOUT + P
  /\ poll_time P s T /\ T <= now w.
Proof.
  intros (_ & inst & Hi & _ & _ & Hst). unfold result. rewrite Hi.
  unfold waiter_state in Hst. intros Hres.
  destruct (phase inst); try contradiction.
  - destruct Hst as (_ & Hnone & _). congruence.
  - destruct Hst as (_ & Hnone & _). congruence.
  - destruct Hst as (Hnone & _). congruence.
  - destruct Hst as (Hnone & _). congruence.
  - destruct Hst as (T' & HT & Hb & Hp & Hle).
    rewrite HT in Hres. injection Hres as <- <-. auto.
Qed.

Lemma waiter_inv_late P h s W w :
  h <= s < h + STALE_TIMEOUT ->
  waiter_inv P h s W w -> h + STALE_TIMEOUT + P <= now w ->
  exists T, result w W = Some (true, T).
Proof.
  intros Hs (_ & inst & Hi & _ & _ & Hst) Hnow. unfold result. rewrite Hi.
  unfold waiter_state, STALE_TIMEOUT in *.
  destruct (phase inst); try contradiction.
  - destruct Hst as (? & _). lia.
  - destruct Hst as (? & _). lia.
  - destruct Hst as (_ & _ & _ & Hle & Hlt & (k & Hk & Htm)).
    exfalso. lia.
  - destruct Hst as (_ & _ & _ & ? & _). lia.
  - destruct Hst as (T & HT & _). eauto.
Qed.

Lemma waiter_inv_early P h s W w :
  waiter_inv P h s W w -> now w < h + STALE_TIMEOUT -> result w W = None.
Proof.
  intros Hinv Hnow. destruct (result w W) as [[b T]|] eqn:E; [|reflexivity].
  destruct (waiter_inv_result _ _ _ _ _ _ _ Hinv E) as (_ & ? & _ & ?). lia.
Qed.

(** The world after a turn of the waiter. *)
Lemma waiter_step_self P h s W w e tr inst :
  waiter_inv P h s W w -> trigger_of e = Some (W, tr) ->
  instances w !! W = Some inst ->
  step P w e = commit w W (react P (now w) W tr (store w) inst).
Proof.
  intros (_ & inst' & Hi & Hal & _) Htr Hi'.
  rewrite Hi in Hi'. injection Hi' as ->.
  destruct e; simpl in Htr; try discriminate; injection Htr as -> <-;
    simpl; unfold deliver; rewrite Hi, Hal; reflexivity.
Qed.


Lemma waiter_act_rank P h s W t st inst :
  0 < P -> waiter_state P h s W t st inst ->
  let inst' := (react P t W OnAct st inst).1.1 in
  rank inst' = pred (rank inst)
  /\ (rank inst = 1 -> t < timer inst')
  /\ (rank inst = 0 -> inst' = inst).
Proof.
  intros HP Hst. destruct inst as [ph al cl tm ib rs sp].
  unfold waiter_state in Hst. simpl in Hst.
  destruct ph; try contradiction; simpl; unfold react_act, rank; simpl.
  - repeat split; auto; discriminate.
  - destruct Hst as (_ & _ & -> & _). simpl. rewrite Nat.eqb_refl. simpl.
    repeat split; auto; try discriminate. intros _. lia.
  - repeat split; auto; discriminate.
  - destruct Hst as (_ & _ & -> & _). simpl. rewrite Nat.eqb_refl. simpl.
    unfold HEARTBEAT_INTERVAL. repeat split; auto; try discriminate.
    intros _. lia.
  - repeat split; auto; discriminate.
Qed.

Lemma waiter_fire_rank P h s W t st inst :
  0 < P -> waiter_state P h s W t st inst -> rank inst = 0 ->
  let inst' := (react P t W OnFire st inst).1.1 in
  resting t inst' \/ rank inst' = 1.
Proof.
  intros HP Hst Hr. destruct inst as [ph al cl tm ib rs sp].
  unfold waiter_state in Hst. simpl in Hst.
  destruct ph; try contradiction; try discriminate; simpl;
    unfold react_fire, resting, rank; simpl.
  - destruct Hst as (_ & Hreq & Hh & _).
    destruct (Nat.leb_spec tm t); simpl; [|left; split; [reflexivity|lia]].
    unfold observe. rewrite (own_request_not_foreign _ _ _ _ Hreq).
    destruct (lock_vacant t st); simpl; [right; reflexivity|].
    left. split; [reflexivity|lia].
  - unfold HEARTBEAT_INTERVAL.
    destruct (Nat.leb_spec tm t); simpl; left; split; auto; lia.
Qed.

Lemma resting_not_busy t inst :
  resting t inst -> phase inst <> RELEASING -> busy t inst = false.
Proof.
  unfold resting, rank, busy. intros [Hr Ht] Hph.
  apply Nat.leb_gt in Ht.
  destruct (alive inst); [|reflexivity]. simpl.
  destruct (phase inst); try discriminate; auto. now destruct Hph.
Qed.

Lemma waiter_inv_not_releasing P h s W w inst :
  waiter_inv P h s W w -> instances w !! W = Some inst ->
  phase inst <> RELEASING.
Proof.
  intros (_ & inst' & Hi & _ & _ & Hst) Hlook. rewrite Hlook in Hi.
  injection Hi as <-. unfold waiter_state in Hst. intros E.
  now rewrite E in Hst.
Qed.

(** One round lets one unit of time pass. *)
Lemma waiter_round P h s W w :
  0 < P -> h <= s < h + STALE_TIMEOUT ->
  waiter_inv P h s W w -> now (run P w (round W)) = S (now w).
Proof.
  intros HP Hs Hinv.
  assert (Hstep : forall w0 e tr inst0,
             waiter_inv P h s W w0 -> trigger_of e = Some (W, tr) ->
             internal e = true ->
             instances w0 !! W = Some inst0 ->
             waiter_inv P h s W (step P w0 e)
             /\ now (step P w0 e) = now w0
             /\ instances (step P w0 e) !! W
                = Some (react P (now w0) W tr (store w0) inst0).1.1
             /\ waiter_state P h s W (now w0) (store w0) inst0).
  { intros w0 e tr inst0 H0 Htr Hint Hi0. split; [now apply waiter_inv_step|].
    rewrite (waiter_step_self _ _ _ _ _ _ _ _ H0 Htr Hi0).
    split; [reflexivity|]. split; [apply commit_lookup_self|].
    destruct H0 as (_ & inst' & Hi' & _ & _ & Hst').
    rewrite Hi0 in Hi'. now injection Hi' as <-. }
  destruct Hinv as (Hd & i0 & Hi0 & Hrest0).
  assert (Hinv : waiter_inv P h s W w) by (split; eauto).
  destruct (Hstep w (Act W) OnAct i0 Hinv eq_refl eq_refl Hi0)
    as (H1 & N1 & I1 & S0).
  destruct (waiter_act_rank P h s W _ _ _ HP S0) as (R1 & T1 & U1).
  set (w1 := step P w (Act W)) in *.
  set (i1 := (react P (now w) W OnAct (store w) i0).1.1) in *.
  destruct (Hstep w1 (Act W) OnAct i1 H1 eq_refl eq_refl I1)
    as (H2 & N2 & I2 & S1).
  destruct (waiter_act_rank P h s W _ _ _ HP S1) as (R2 & T2 & U2).
  set (w2 := step P w1 (Act W)) in *.
  set (i2 := (react P (now w1) W OnAct (store w1) i1).1.1) in *.
  assert (Hr2 : rank i2 = 0).
  { rewrite R2, R1. unfold rank. destruct (phase i0); reflexivity. }
  destruct (Hstep w2 (Fire W) OnFire i2 H2 eq_refl eq_refl I2)
    as (H3 & N3 & I3 & S2).
  destruct (waiter_fire_rank P h s W _ _ _ HP S2 Hr2) as [Hrest|R3].
  - set (w3 := step P w2 (Fire W)) in *.
    set (i3 := (react P (now w2) W OnFire (store w2) i2).1.1) in *.
    destruct (Hstep w3 (Act W) OnAct i3 H3 eq_refl eq_refl I3)
      as (H4 & N4 & I4 & S3).
    destruct (waiter_act_rank P h s W _ _ _ HP S3) as (R4 & T4 & U4).
    rewrite (U4 (proj1 Hrest)) in I4.
    set (w4 := step P w3 (Act W)) in *.
    change (run P w (round W)) with (step P w4 Tick).
    assert (Hq : quiescent w4 = true).
    { apply bool_decide_eq_true. intros j inst Hj.
      destruct (decide (j = W)) as [Hjw|Hne].
      - subst j. rewrite I4 in Hj. injection Hj as <-.
        apply resting_not_busy;
          [|exact (waiter_inv_not_releasing _ _ _ _ _ _ H4 I4)].
        rewrite N4, N3. exact Hrest.
      - unfold busy. destruct H4 as (Hd4 & _). now rewrite (Hd4 _ _ Hne Hj). }
    simpl. rewrite Hq. simpl. lia.
  - set (w3 := step P w2 (Fire W)) in *.
    set (i3 := (react P (now w2) W OnFire (store w2) i2).1.1) in *.
    destruct (Hstep w3 (Act W) OnAct i3 H3 eq_refl eq_refl I3)
      as (H4 & N4 & I4 & S3).
    destruct (waiter_act_rank P h s W _ _ _ HP S3) as (R4 & T4 & U4).
    set (w4 := step P w3 (Act W)) in *.
    set (i4 := (react P (now w3) W OnAct (store w3) i3).1.1) in *.
    change (run P w (round W)) with (step P w4 Tick).
    assert (Hq : quiescent w4 = true).
    { apply bool_decide_eq_true. intros j inst Hj.
      destruct (decide (j = W)) as [Hjw|Hne].
      - subst j. rewrite I4 in Hj. injection Hj as <-.
        apply resting_not_busy;
          [|exact (waiter_inv_not_releasing _ _ _ _ _ _ H4 I4)].
        split; [rewrite R4, R3; reflexivity|]. rewrite N4. now apply T4.
      - unfold busy. destruct H4 as (Hd4 & _). now rewrite (Hd4 _ _ Hne Hj). }
    simpl. rewrite Hq. simpl. lia.
Qed.

Lemma waiter_rounds P h s W w n :
  0 < P -> h <= s < h + STALE_TIMEOUT ->
  waiter_inv P h s W w ->
  now (run P w (rounds W n)) = now w + n
  /\ waiter_inv P h s W (run P w (rounds W n)).
Proof.
  intros HP Hs. revert w. induction n as [|n IH]; intros w Hinv.
  - simpl. split; [lia|exact Hinv].
  - change (rounds W (S n)) with (round W ++ rounds W n). rewrite run_app.
    assert (Hinv' : waiter_inv P h s W (run P w (round W)))
      by (apply waiter_inv_run; auto).
    destruct (IH _ Hinv') as [Hn Hi]. split; [|exact Hi].
    rewrite Hn, (waiter_round P h s W w HP Hs Hinv). lia.
Qed.

Lemma rounds_internal W n : forallb internal (rounds W n) = true.
Proof.
  induction n as [|n IH]; [reflexivity|].
  unfold rounds. simpl. exact IH.
Qed.


(** A turn of an instance in [ex] that leaves the store guarded keeps the
    lock guarded for the others. *)
Lemma guarded_commit_ex B (ex : InstanceId -> Prop) w i r :
  ex i -> guarded B ex w ->
  guard B (now w) r.1.2 -> store_wf (now w) r.1.2 ->
  guarded B ex (commit w i r).
Proof.
  intros Hex (_ & _ & Hl) Hg Hwf. split; [exact Hg|]. split; [exact Hwf|].
  intros j inst' Hnex Hj. destruct (decide (j = i)) as [->|Hne];
    [contradiction|].
  apply (commit_other_inv _ _ _ _ _ Hne) in Hj as (inst & Hj & [-> | ->]);
    [|apply late_set_inbox]; exact (Hl j _ Hnex Hj).
Qed.


Lemma step_other P w e j inst' :
  actor e <> Some j -> instances (step P w e) !! j = Some inst' ->
  exists inst, instances w !! j = Some inst
               /\ (inst' = inst \/ inst' = set_inbox true inst).
Proof.
  intros Hne Hj.
  destruct (step_view P w e) as [e| |i d Hnone|e i tr inst Htr Hi Hal].
  - eauto.
  - simpl in Hj. eauto.
  - eapply commit_other_inv; [|exact Hj].
    simpl in Hne. congruence.
  - eapply commit_other_inv; [|exact Hj].
    rewrite (trigger_actor _ _ _ Htr) in Hne. congruence.
Qed.





























Lemma contender_early_inbox P s st x b :
  contender_early P s st (set_inbox b x) <-> contender_early P s st x.
Proof. reflexivity. Qed.


Lemma store_commit w i r : store (commit w i r) = r.1.2.
Proof. reflexivity. Qed.





Lemma owner_state_inbox Y st y b :
  owner_state Y st (set_inbox b y) <-> owner_state Y st y.
Proof. reflexivity. Qed.




Lemma prompt_app P l1 l2 w :
  prompt P w (l1 ++ l2) = true ->
  prompt P w l1 = true /\ prompt P (run P w l1) l2 = true.
Proof.
  revert w. induction l1 as [|e l IH]; intros w; simpl; [auto|].
  intros Hp. apply andb_prop in Hp as [He Hl].
  destruct (IH _ Hl) as [H1 H2]. rewrite He, H1. auto.
Qed.

(** Instances start by [Acquire] only, and never disappear. *)
Lemma step_started P w e j :
  is_Some (instances w !! j) -> is_Some (instances (step P w e) !! j).
Proof.
  intros Hj.
  assert (Hc : forall i r, is_Some (instances (commit w i r) !! j)).
  { intros i r. destruct (decide (j = i)) as [->|Hne].
    - rewrite commit_lookup_self. eauto.
    - rewrite commit_lookup_other by exact Hne.
      destruct Hj as [x ->]. simpl. eauto. }
  destruct (step_view P w e); auto.
Qed.

Lemma run_started P w l j :
  is_Some (instances w !! j) -> is_Some (instances (run P w l) !! j).
Proof.
  revert w. induction l as [|e l IH]; intros w Hj; [exact Hj|].
  rewrite run_cons. apply IH. now apply step_started.
Qed.

Lemma run_acquire_started P w l i d :
  In (Acquire i d) l -> is_Some (instances (run P w l) !! i).
Proof.
  revert w. induction l as [|e l IH]; intros w; [intros []|].
  intros [-> |Hin]; rewrite run_cons; [|now apply IH].
  apply run_started. simpl.
  destruct (instances w !! i) eqn:E; [rewrite E; eauto|].
  rewrite commit_lookup_self. eauto.
Qed.

Lemma step_dom P w e j :
  is_Some (instances (step P w e) !! j) ->
  is_Some (instances w !! j) \/ exists d, e = Acquire j d.
Proof.
  destruct (step_view P w e) as [e| |i d Hnone|e i tr inst Htr Hi Hal]; auto.
  - destruct (decide (j = i)) as [->|Hne]; [eauto|].
    rewrite commit_lookup_other by exact Hne.
    destruct (instances w !! j); simpl; eauto.
  - destruct (decide (j = i)) as [->|Hne]; [eauto|].
    rewrite commit_lookup_other by exact Hne.
    destruct (instances w !! j); simpl; eauto.
Qed.






Section Arena.
Variables (P H A B d s : nat).
Hypothesis HP : 0 < P.
Hypothesis Hd : 0 < d.
Hypothesis HAB : A <> B.
Hypothesis HHA : H <> A.
Hypothesis HHB : H <> B.









End Arena.

Lemma retired_inbox b x : retired x -> retired (set_inbox b x).
Proof. exact id. Qed.

Lemma retired_turn P t i tr st x :
  retired x ->
  retired (react P t i tr st x).1.1
  /\ (react P t i tr st x).1.2 = st /\ (react P t i tr st x).2 = false.
Proof.
  destruct x as [ph al cl tm ib rs sp]. intros (Hph & Hsp & T & Hrs).
  simpl in Hph, Hsp, Hrs. subst ph sp rs.
  destruct tr; unfold_react; break_match; simpl;
    (split; [split; [reflexivity|split; [reflexivity|eauto]]|auto]).
Qed.

Lemma seq_ok_safe w : seq_ok w -> seq_safe w.
Proof.
  intros [[_ Hall]|(b & c & _ & _ & (x & Hx & _ & Hsp & Hb) & Hall)].
  - split.
    + intros i j (x & Hx & Hph) _. destruct (Hall i x Hx) as (E & _). congruence.
    + intros i inst Hi. destruct (Hall i inst Hi) as (_ & Hsp & T & HT).
      split; [exact Hsp|congruence].
  - assert (Hother : forall i y, instances w !! i = Some y -> phase y = HOLDING ->
                                 i = c).
    { intros i y Hy Hph. destruct (decide (i = c)) as [|Hne]; [assumption|].
      destruct (Hall i y Hne Hy) as (E & _). congruence. }
    split.
    + intros i j (y & Hy & Hph) (z & Hz & Hph').
      rewrite (Hother i y Hy Hph), (Hother j z Hz Hph'). reflexivity.
    + intros i inst Hi. destruct (decide (i = c)) as [->|Hne].
      * rewrite Hx in Hi. injection Hi as <-. split; [exact Hsp|].
        destruct b; [destruct Hb as (_ & T & HT)|destruct Hb as (_ & HT)];
          congruence.
      * destruct (Hall i inst Hne Hi) as (_ & Hsp' & T & HT).
        split; [exact Hsp'|congruence].
Qed.

Lemma retired_others w i r :
  (forall j inst, j <> i -> instances w !! j = Some inst -> retired inst) ->
  forall j inst, j <> i -> instances (commit w i r) !! j = Some inst ->
                 retired inst.
Proof.
  intros Hall j inst Hne Hj.
  apply (commit_other_inv _ _ _ _ _ Hne) in Hj as (x & Hx & [-> | ->]);
    [|apply retired_inbox]; exact (Hall j x Hne Hx).
Qed.

Lemma seq_idle_acquire P w i d :
  seq_idle w -> instances w !! i = None ->
  seq_mid false i (step P w (Acquire i d)).
Proof.
  intros [Hst Hall] Hnone. simpl. rewrite Hnone, Hst.
  change (enter (now w) i empty_store (fresh_instance d))
    with (claim (now w) i empty_store (fresh_instance d)).
  split; [reflexivity|]. split; [simpl; eauto|]. split.
  - eexists. split; [apply commit_lookup_self|]. simpl. auto.
  - apply retired_others. intros j inst _. apply Hall.
Qed.

Lemma seq_mid_act P w c :
  seq_mid false c w -> seq_mid true c (step P w (Act c)).
Proof.
  intros (Hreq & (l & Hl & Hid) & (x & Hx & Hal & Hsp & Hph & Hres) & Hall).
  simpl. unfold deliver. rewrite Hx, Hal.
  unfold react, react_act. rewrite Hph, Hl, Hid, Nat.eqb_refl.
  unfold become_holder. rewrite Hreq.
  split; [exact Hreq|]. split; [simpl; eauto|]. split.
  - eexists. split; [apply commit_lookup_self|]. simpl. eauto.
  - apply retired_others. exact Hall.
Qed.

Lemma seq_mid_internal P w c e :
  internal e = true -> seq_mid true c w -> seq_mid true c (step P w e).
Proof.
  intros Hint Hmid.
  destruct (step_view P w e) as [e| Hq|i d Hnone|e i tr inst Htr Hi Hal];
    [exact Hmid|exact Hmid|discriminate|].
  destruct Hmid as (Hreq & (l & Hl & Hid) & (x & Hx & Hxal & Hsp & Hph & T & HT)
                    & Hall).
  pose proof (internal_trigger _ _ _ Hint Htr) as Htr3.
  destruct (decide (i = c)) as [->|Hne].
  - rewrite Hx in Hi. injection Hi as <-.
    assert (Hturn : let r := react P (now w) c tr (store w) x in
              requestRecord r.1.2 = None
              /\ (exists l', lockRecord r.1.2 = Some l' /\ holderId l' = c)
              /\ alive r.1.1 = true /\ superseded r.1.1 = None
              /\ phase r.1.1 = HOLDING /\ resolved r.1.1 = Some (true, T)).
    { clear Hall Hx. destruct x as [ph al cl tm ib rs sp].
      destruct (store w) as [lk rq]. simpl in *. subst.
      destruct Htr3 as [-> | [-> | ->]]; unfold_react; break_match; simpl;
        repeat split; eauto. }
    destruct Hturn as (R1 & R2 & R3 & R4 & R5 & R6).
    split; [exact R1|]. split; [exact R2|]. split.
    + eexists. split; [apply commit_lookup_self|].
      split; [exact R3|]. split; [exact R4|]. split; [exact R5|eauto].
    + apply retired_others. exact Hall.
  - destruct (retired_turn P (now w) i tr (store w) inst (Hall i inst Hne Hi))
      as (Hret & Hst & Hfl).
    unfold seq_mid. rewrite store_commit, Hst.
    split; [exact Hreq|]. split; [eauto|]. split.
    + exists x.
      split; [|split; [exact Hxal|split; [exact Hsp|split; [exact Hph|eauto]]]].
      rewrite commit_lookup_other, Hx, Hfl by congruence. reflexivity.
    + intros j inst' Hj Hlook. destruct (decide (j = i)) as [->|Hji].
      * rewrite commit_lookup_self in Hlook. now injection Hlook as <-.
      * apply (commit_other_inv _ _ _ _ _ Hji) in Hlook
          as (y & Hy & [-> | ->]); [|apply retired_inbox]; exact (Hall j y Hj Hy).
Qed.

Lemma seq_mid_shutdown P w c :
  seq_mid true c w -> seq_idle (step P w (Shutdown c)).
Proof.
  intros (Hreq & _ & (x & Hx & Hal & Hsp & Hph & T & HT) & Hall).
  simpl. unfold deliver. rewrite Hx, Hal.
  unfold react, react_shutdown. rewrite Hph.
  split.
  - rewrite store_commit. unfold write_lock. simpl. now rewrite Hreq.
  - intros j inst Hj. destruct (decide (j = c)) as [->|Hne].
    + rewrite commit_lookup_self in Hj. injection Hj as <-.
      split; [reflexivity|]. split; [exact Hsp|]. simpl. eauto.
    + revert Hj. apply retired_others; assumption.
Qed.

Lemma seq_idle_step P w e :
  (forall i d, e = Acquire i d -> is_Some (instances w !! i)) ->
  seq_idle w -> seq_idle (step P w e).
Proof.
  intros Hacq [Hst Hall].
  destruct (step_view P w e) as [e| Hq|i d Hnone|e i tr inst Htr Hi Hal].
  - now split.
  - now split.
  - destruct (Hacq i d eq_refl) as [? ?]. congruence.
  - destruct (retired_turn P (now w) i tr (store w) inst (Hall i inst Hi))
      as (Hret & Hst' & Hfl).
    split; [rewrite store_commit; congruence|].
    intros j inst' Hj. destruct (decide (j = i)) as [->|Hne].
    + rewrite commit_lookup_self in Hj. now injection Hj as <-.
    + apply (commit_other_inv _ _ _ _ _ Hne) in Hj as (y & Hy & [-> | ->]);
        [|apply retired_inbox]; exact (Hall j y Hy).
Qed.

Lemma prefix_cons {X} (e : X) l pre post :
  e :: l = pre ++ post ->
  pre = [] \/ exists pre', pre = e :: pre' /\ l = pre' ++ post.
Proof.
  destruct pre as [|e' pre']; [auto|]. simpl. intros [= <- ->]. eauto.
Qed.

Lemma seq_body_ok P c body w :
  forallb internal body = true -> seq_mid true c w ->
  (forall pre post, body ++ [Shutdown c] = pre ++ post ->
                    seq_ok (run P w pre))
  /\ seq_idle (run P w (body ++ [Shutdown c])).
Proof.
  revert w. induction body as [|e b IH]; intros w Hint Hmid.
  - split; [|now apply seq_mid_shutdown].
    intros pre post Heq. apply prefix_cons in Heq as [-> |(pre' & -> & Heq)].
    + right. eauto.
    + destruct pre'; [|destruct pre'; discriminate].
      left. now apply seq_mid_shutdown.
  - simpl in Hint. apply andb_prop in Hint as [He Hb].
    destruct (IH (step P w e) Hb (seq_mid_internal P w c e He Hmid))
      as [IH1 IH2].
    split; [|exact IH2].
    intros pre post Heq. simpl in Heq.
    apply prefix_cons in Heq as [-> |(pre' & -> & Heq)].
    + right. eauto.
    + rewrite run_cons. now apply (IH1 pre' post).
Qed.

Lemma session_ok P w i d body :
  seq_idle w -> instances w !! i = None -> forallb internal body = true ->
  (forall pre post, session (i, d, body) = pre ++ post ->
                    seq_ok (run P w pre))
  /\ seq_idle (run P w (session (i, d, body))).
Proof.
  intros Hidle Hnone Hint.
  pose proof (seq_idle_acquire P w i d Hidle Hnone) as H1.
  pose proof (seq_mid_act P _ i H1) as H2.
  destruct (seq_body_ok P i body _ Hint H2) as [B1 B2].
  split; [|exact B2].
  intros pre post Heq. unfold session in Heq. simpl in Heq.
  apply prefix_cons in Heq as [-> |(pre1 & -> & Heq)]; [now left|].
  apply prefix_cons in Heq as [-> |(pre2 & -> & Heq)]; [right; eauto|].
  rewrite !run_cons. now apply (B1 pre2 post).
Qed.

Lemma run_dom P l w j :
  is_Some (instances (run P w l) !! j) ->
  is_Some (instances w !! j) \/ exists d, In (Acquire j d) l.
Proof.
  revert w. induction l as [|e l IH]; intros w Hj; [auto|].
  rewrite run_cons in Hj. apply IH in Hj as [Hj|[d Hin]].
  - apply step_dom in Hj as [Hj|[d ->]]; [auto|]. right. exists d. now left.
  - right. exists d. now right.
Qed.

Lemma session_acquire i d body j d' :
  forallb internal body = true ->
  In (Acquire j d') (session (i, d, body)) -> j = i.
Proof.
  intros Hint. unfold session. simpl.
  intros [[= -> _]|[[=]|Hin]]; [reflexivity|].
  apply in_app_or in Hin as [Hin|[[=]|[]]].
  rewrite forallb_forall in Hint. specialize (Hint _ Hin). discriminate.
Qed.

Lemma sessions_ok P l w :
  seq_idle w ->
  NoDup (map (fun s : InstanceId * nat * list Event => s.1.1) l) ->
  (forall s, In s l -> instances w !! s.1.1 = None) ->
  Forall (fun s : InstanceId * nat * list Event =>
            forallb internal s.2 = true) l ->
  (forall pre post, sessions l = pre ++ post -> seq_ok (run P w pre))
  /\ seq_idle (run P w (sessions l)).
Proof.
  revert w. induction l as [|[[i d] body] l IH]; intros w Hidle Hnd Hnew Hint.
  - split; [|exact Hidle]. intros pre post Heq.
    destruct pre; [now left|discriminate].
  - rewrite map_cons in Hnd. apply NoDup_cons in Hnd as [Hni Hnd].
    apply Forall_cons in Hint as [Hb Hint]. simpl in Hb.
    assert (Hi : instances w !! i = None) by (apply (Hnew (i, d, body)); now left).
    destruct (session_ok P w i d body Hidle Hi Hb) as [S1 S2].
    assert (Hnew' : forall s, In s l ->
              instances (run P w (session (i, d, body))) !! s.1.1 = None).
    { intros s0 Hs0. apply eq_None_not_Some. intros Hsome.
      apply run_dom in Hsome as [Hsome|[d' Hin]].
      - rewrite (Hnew s0 (or_intror Hs0)) in Hsome. now destruct Hsome.
      - apply (session_acquire _ _ _ _ _ Hb) in Hin. apply Hni.
        cbn [fst]. rewrite <- Hin. apply list_elem_of_In.
        exact (in_map (fun s : InstanceId * nat * list Event => s.1.1) l s0 Hs0). }
    destruct (IH _ S2 Hnd Hnew' Hint) as [I1 I2].
    change (sessions ((i, d, body) :: l))
      with (session (i, d, body) ++ sessions l).
    split; [|rewrite run_app; exact I2].
    intros pre post Heq.
    apply app_eq_app in Heq as [m [[E1 E2]|[E1 E2]]].
    + apply (S1 pre m). exact E1.
    + subst pre. rewrite run_app. apply (I1 m post). exact E2.
Qed.

(** A call of [acquire] over an empty store resolves [true] at once. *)
Lemma fresh_acquires P w i d :
  store w = empty_store -> instances w !! i = None ->
  result (run P w [Acquire i d; Act i]) i = Some (true, now w).
Proof.
  intros Hst Hnone. unfold run. simpl. rewrite Hnone, Hst.
  change (enter (now w) i empty_store (fresh_instance d))
    with (claim (now w) i empty_store (fresh_instance d)).
  unfold deliver. rewrite commit_lookup_self. simpl.
  unfold result. rewrite commit_lookup_self.
  unfold react_act. simpl. rewrite Nat.eqb_refl. reflexivity.
Qed.

(** C1: clean sequential use: instances started one at a time, each
    shut down before the next starts.  At every moment of such a run at
    most one instance holds the lock, no [onSuperseded] has been invoked
    and no call of [acquire] has resolved [false]; at the end every call
    has resolved [true]; and an instance that starts over an empty store
    resolves [true] at once. *)
Theorem C1_sequential_mutual_exclusion P t0
    (l : list (InstanceId * nat * list Event)) :
  NoDup (map (fun s : InstanceId * nat * list Event => s.1.1) l) ->
  Forall (fun s : InstanceId * nat * list Event =>
            forallb internal s.2 = true) l ->
  (forall pre post, sessions l = pre ++ post ->
     seq_safe (run P (initial t0) pre))
  /\ (forall s, In s l ->
        exists T, result (run P (initial t0) (sessions l)) s.1.1
                  = Some (true, T))
  /\ (forall w i d, store w = empty_store -> instances w !! i = None ->
        result (run P w [Acquire i d; Act i]) i = Some (true, now w)).
Proof.
  intros Hnd Hint.
  assert (Hidle : seq_idle (initial t0)).
  { split; [reflexivity|]. intros j inst Hj. simpl in Hj.
    rewrite lookup_empty in Hj. discriminate. }
  destruct (sessions_ok P l (initial t0) Hidle Hnd) as [S1 S2];
    [intros; apply lookup_empty|exact Hint|].
  split; [|split].
  - intros pre post Heq. apply seq_ok_safe. eauto.
  - intros [[i d] body] Hs. simpl.
    assert (Hin : In (Acquire i d) (sessions l)).
    { unfold sessions. apply in_concat. exists (session (i, d, body)).
      split; [apply (in_map session l _ Hs)|now left]. }
    destruct (run_acquire_started P (initial t0) _ _ _ Hin) as [x Hx].
    destruct S2 as [_ Hall]. destruct (Hall i x Hx) as (_ & _ & T & HT).
    exists T. unfold result. now rewrite Hx.
  - intros w i d. apply fresh_acquires.
Qed.

Lemma holding_reached P H d t :
  run P (initial t) [Acquire H d; Act H] = holding H d t.
Proof.
  unfold run. simpl. rewrite lookup_empty.
  change (enter t H empty_store (fresh_instance d))
    with (claim t H empty_store (fresh_instance d)).
  unfold deliver. rewrite commit_lookup_self. simpl.
  unfold react_act. simpl. rewrite Nat.eqb_refl.
  unfold commit, holding. simpl. f_equal.
  apply map_eq. intros j. destruct (decide (j = H)) as [->|Hne].
  - now rewrite lookup_insert_eq, lookup_singleton_eq.
  - rewrite lookup_insert_ne, lookup_notify_others, lookup_insert_ne,
      lookup_notify_others, lookup_empty, lookup_singleton_ne by congruence.
    reflexivity.
Qed.



Lemma crashed_crashed_holder H t0 h s W :
  h <= s < h + STALE_TIMEOUT -> W <> H ->
  crashed_holder h s W (crashed H t0 h s).
Proof.
  intros Hs Hne. split; [reflexivity|]. split; [exact Hs|].
  split; [eexists; split; reflexivity|]. split; [reflexivity|].
  split; [apply lookup_singleton_ne; congruence|].
  intros i inst Hi. simpl in Hi. apply lookup_singleton_Some in Hi as [_ <-].
  reflexivity.
Qed.

(** Polls that fall on the staleness of the record: the poll interval
    divides the time from the start of the waiter to it. *)
Lemma poll_exact P h s T :
  0 < P -> s <= h + STALE_TIMEOUT -> Nat.divide P (h + STALE_TIMEOUT - s) ->
  poll_time P s T -> T < h + STALE_TIMEOUT + P -> T <= h + STALE_TIMEOUT.
Proof.
  intros HP Hs [m Hm] (k & Hk & ->) Hlt. assert (k <= m) by nia. nia.
Qed.

Lemma waiter_inv_exact P h s W w :
  0 < P -> h <= s < h + STALE_TIMEOUT ->
  Nat.divide P (h + STALE_TIMEOUT - s) ->
  waiter_inv P h s W w ->
  (forall b T, result w W = Some (b, T) -> b = true /\ T = h + STALE_TIMEOUT)
  /\ (h + STALE_TIMEOUT < now w -> result w W = Some (true, h + STALE_TIMEOUT)).
Proof.
  intros HP Hs Hdiv Hinv.
  assert (Hex : forall T, poll_time P s T -> T < h + STALE_TIMEOUT + P ->
                          T <= h + STALE_TIMEOUT).
  { intros T. apply poll_exact; auto. lia. }
  assert (Hres : forall b T, result w W = Some (b, T) ->
                             b = true /\ T = h + STALE_TIMEOUT).
  { intros b T HT.
    destruct (waiter_inv_result _ _ _ _ _ _ _ Hinv HT) as (? & ? & Hp & _).
    split; [assumption|]. specialize (Hex T Hp). lia. }
  split; [exact Hres|]. intros Hnow.
  destruct Hinv as (_ & inst & Hi & _ & _ & Hst).
  assert (Hsome : exists T, resolved inst = Some (true, T)).
  { unfold waiter_state in Hst.
    destruct (phase inst); try contradiction.
    - destruct Hst as (? & _). lia.
    - destruct Hst as (? & _). lia.
    - destruct Hst as (_ & _ & _ & Hle & Hlt & Hp).
      specialize (Hex _ Hp Hlt). lia.
    - destruct Hst as (_ & _ & _ & Hb & Hp).
      specialize (Hex _ Hp ltac:(lia)). lia.
    - destruct Hst as (T & HT & _). eauto. }
  destruct Hsome as [T HT].
  assert (Hr : result w W = Some (true, T)) by (unfold result; now rewrite Hi).
  destruct (Hres _ _ Hr) as [_ ->]. exact Hr.
Qed.


(** The crash of the test's third scenario. *)
Lemma crash_reached :
  run WATCHDOG_INTERVAL (initial 0) crash_schedule = crashed 1 0 5 10.
Proof. vm_compute. reflexivity. Qed.

(** C2: crash recovery: a holder stopped at heartbeat [h] without
    releasing, and a single instance calls [acquire] at [s] and is left to
    run.  Its call resolves only with [true], at a poll [T] of its
    Watchdog, no earlier than [STALE_TIMEOUT] after the last heartbeat and
    no later than one poll interval [P] after that; it is unresolved
    before [h + STALE_TIMEOUT] and resolved from [h + STALE_TIMEOUT + P]
    on, a time that some schedule reaches.  Where a poll falls on
    [h + STALE_TIMEOUT] (the interval divides the time from [s] to it) the
    call resolves at exactly that time: with the last heartbeat at 5 and
    the waiter started at 10 it is unresolved before 35 and has resolved
    at 35 once 35 has passed. *)
Theorem C2_crash_recovery_timing P h s W d w0 sched :
  0 < P -> crashed_holder h s W w0 -> forallb internal sched = true ->
  (forall b T, result (run P w0 (Acquire W d :: sched)) W = Some (b, T) ->
     b = true /\ h + STALE_TIMEOUT <= T <= h + STALE_TIMEOUT + P
     /\ poll_time P s T)
  /\ (now (run P w0 (Acquire W d :: sched)) < h + STALE_TIMEOUT ->
      result (run P w0 (Acquire W d :: sched)) W = None)
  /\ (h + STALE_TIMEOUT + P <= now (run P w0 (Acquire W d :: sched)) ->
      exists T, result (run P w0 (Acquire W d :: sched)) W = Some (true, T))
  /\ (exists T,
        result (run P w0 (Acquire W d :: rounds W (h + STALE_TIMEOUT + P - s))) W
        = Some (true, T))
  /\ (Nat.divide P (h + STALE_TIMEOUT - s) ->
      (forall b T, result (run P w0 (Acquire W d :: sched)) W = Some (b, T) ->
         b = true /\ T = h + STALE_TIMEOUT)
      /\ (h + STALE_TIMEOUT < now (run P w0 (Acquire W d :: sched)) ->
          result (run P w0 (Acquire W d :: sched)) W
          = Some (true, h + STALE_TIMEOUT)))
  /\ (h = 5 -> s = 10 -> Nat.divide P 25 ->
      (now (run P w0 (Acquire W d :: sched)) < 35 ->
       result (run P w0 (Acquire W d :: sched)) W = None)
      /\ (35 < now (run P w0 (Acquire W d :: sched)) ->
          result (run P w0 (Acquire W d :: sched)) W = Some (true, 35))).
Proof.
  intros HP Hcr Hint.
  assert (Hs : h <= s < h + STALE_TIMEOUT) by (destruct Hcr as (_ & Hs & _); exact Hs).
  assert (Hnow : now (step P w0 (Acquire W d)) = s).
  { destruct Hcr as (Hnow & _). rewrite <- Hnow.
    simpl. destruct (instances w0 !! W); reflexivity. }
  pose proof (waiter_inv_acquire P h s W w0 d Hcr) as H0.
  pose proof (waiter_inv_run P h s W _ sched HP Hs Hint H0) as H1.
  rewrite run_cons.
  assert (Hres : forall b T, result (run P (step P w0 (Acquire W d)) sched) W
                             = Some (b, T) ->
            b = true /\ h + STALE_TIMEOUT <= T < h + STALE_TIMEOUT + P
            /\ poll_time P s T).
  { intros b T HT.
    destruct (waiter_inv_result P h s W _ b T H1 HT) as (? & ? & ? & _). auto. }
  split; [|split; [|split; [|split; [|split]]]].
  - intros b T HT. destruct (Hres b T HT) as (? & ? & ?).
    repeat split; auto; lia.
  - now apply (waiter_inv_early P h s).
  - now apply (waiter_inv_late P h s).
  - rewrite run_cons.
    destruct (waiter_rounds P h s W _ (h + STALE_TIMEOUT + P - s) HP Hs H0)
      as [Hn Hi].
    apply (waiter_inv_late P h s W _ Hs Hi). lia.
  - intros Hdiv. exact (waiter_inv_exact P h s W _ HP Hs Hdiv H1).
  - intros -> -> Hdiv.
    split; [exact (waiter_inv_early P 5 10 W _ H1)|].
    exact (proj2 (waiter_inv_exact P 5 10 W _ HP Hs Hdiv H1)).
Qed.



(** *** The scenarios of the test *)

Example scenario_single_instance :
  result (run WATCHDOG_INTERVAL (initial 0) [Acquire 1 0; Act 1]) 1
  = Some (true, 0)
  /\ (forall h,
        instances (run WATCHDOG_INTERVAL (initial 0) [Acquire 1 0; Act 1]) !! 1
        = Some h ->
        superseded h = None).
Proof.
  split; [reflexivity|]. rewrite holding_reached. simpl.
  intros h Hh. rewrite lookup_singleton_eq in Hh. now injection Hh as <-.
Qed.

Example scenario_clean_shutdown :
  result (run WATCHDOG_INTERVAL (initial 0) (sessions [(1, 0, []); (2, 0, [])])) 1
  = Some (true, 0)
  /\ result (run WATCHDOG_INTERVAL (initial 0)
               (sessions [(1, 0, []); (2, 0, [])])) 2
     = Some (true, 0).
Proof. split; reflexivity. Qed.

(** The waiter started at 10 after the heartbeat at 5 has nothing when
    time 35 begins, and the lock at 35 with its poll. *)
Example scenario_crash :
  now (run WATCHDOG_INTERVAL (initial 0)
         (crash_schedule ++ Acquire 2 0 :: rounds 2 25)) = 35
  /\ result (run WATCHDOG_INTERVAL (initial 0)
               (crash_schedule ++ Acquire 2 0 :: rounds 2 25)) 2
     = None
  /\ result (run WATCHDOG_INTERVAL (initial 0)
              (crash_schedule ++ Acquire 2 0 :: rounds 2 25 ++ [Fire 2; Act 2])) 2
     = Some (true, 35).
Proof. repeat split; vm_compute; reflexivity. Qed.

(** A cleanup of 2, as in the test: nothing for the second instance
    before the end of the cleanup, the lock at 2. *)
Example scenario_handoff :
  result (run WATCHDOG_INTERVAL (initial 0)
            ([Acquire 1 2; Act 1]
             ++ [Acquire 2 0; Act 2; Act 2; Notify 1; Tick])) 2 = None
  /\ result (run WATCHDOG_INTERVAL (initial 0)
               ([Acquire 1 2; Act 1] ++ handoff_schedule)) 2
     = Some (true, 2).
Proof. split; vm_compute; reflexivity. Qed.

(** Scenario D of the spec, a cleanup of 2000: the holder keeps its
    record fresh throughout; the second instance has nothing at 1999 and
    the lock at 2000. *)
Example scenario_long_handoff :
  now (run WATCHDOG_INTERVAL (holding 1 2000 0) (long_handoff_schedule 1999))
  = 1999
  /\ result (run WATCHDOG_INTERVAL (holding 1 2000 0)
               (long_handoff_schedule 1999)) 2 = None
  /\ lock_vacant 1999
       (store (run WATCHDOG_INTERVAL (holding 1 2000 0)
                 (long_handoff_schedule 1999))) = false
  /\ result (run WATCHDOG_INTERVAL (holding 1 2000 0)
               (long_handoff_schedule 2000 ++ [Fire 1; Notify 2; Act 2])) 2
     = Some (true, 2000).
Proof. repeat split; vm_compute; reflexivity. Qed.

(** The fifth scenario of the test: the holder has pinged at 5, two
    instances request at once; the second has given up and the third is
    still waiting; two time units later the third has the lock. *)
Example scenario_contest :
  result (run WATCHDOG_INTERVAL (initial 0)
            ([Acquire 1 2; Act 1] ++ repeat Tick 5 ++ [Fire 1]
             ++ contest_requests)) 2 = Some (false, 5)
  /\ result (run WATCHDOG_INTERVAL (initial 0)
              ([Acquire 1 2; Act 1] ++ repeat Tick 5 ++ [Fire 1]
               ++ contest_requests)) 3 = None
  /\ result (run WATCHDOG_INTERVAL (initial 0)
              ([Acquire 1 2; Act 1] ++ repeat Tick 5 ++ [Fire 1]
               ++ contest_requests ++ contest_handoff)) 2 = Some (false, 5)
  /\ result (run WATCHDOG_INTERVAL (initial 0)
              ([Acquire 1 2; Act 1] ++ repeat Tick 5 ++ [Fire 1]
               ++ contest_requests ++ contest_handoff)) 3 = Some (true, 7).
Proof. repeat split; vm_compute; reflexivity. Qed.

(** Requests in which each of the two has re-read the slot before the
    other writes: the second learns of the third's request from the
    Notifier and gives up; the third has the lock at the end of the
    cleanup. *)
Example scenario_contest_notified :
  result (run WATCHDOG_INTERVAL (holding 1 2 0) blind_requests) 2
  = Some (false, 0)
  /\ result (run WATCHDOG_INTERVAL (holding 1 2 0) blind_requests) 3 = None
  /\ result (run WATCHDOG_INTERVAL (holding 1 2 0)
               (blind_requests ++ contest_handoff)) 3 = Some (true, 2).
Proof. repeat split; vm_compute; reflexivity. Qed.

Lemma C1_sequential_mutual_exclusion_witness :
  (forall pre post,
     sessions [(1, 0, [Tick; Fire 1]); (2, 0, [])] = pre ++ post ->
     seq_safe (run 5 (initial 0) pre))
  /\ (forall s, In s [(1, 0, [Tick; Fire 1]); (2, 0, [])] ->
        exists T,
          result (run 5 (initial 0)
                    (sessions [(1, 0, [Tick; Fire 1]); (2, 0, [])])) s.1.1
          = Some (true, T))
  /\ (forall w i d, store w = empty_store -> instances w !! i = None ->
        result (run 5 w [Acquire i d; Act i]) i = Some (true, now w)).
Proof.
  apply (C1_sequential_mutual_exclusion 5 0
           [(1, 0, [Tick; Fire 1]); (2, 0, [])]).
  - apply (bool_decide_unpack _). vm_compute. exact I.
  - repeat constructor.
Defined.

Lemma C2_crash_recovery_timing_witness :
  (forall b T,
     result (run WATCHDOG_INTERVAL (crashed 1 0 5 10)
               (Acquire 2 0 :: rounds 2 30)) 2
     = Some (b, T) ->
     b = true /\ 5 + STALE_TIMEOUT <= T <= 5 + STALE_TIMEOUT + WATCHDOG_INTERVAL
     /\ poll_time WATCHDOG_INTERVAL 10 T)
  /\ (now (run WATCHDOG_INTERVAL (crashed 1 0 5 10) (Acquire 2 0 :: rounds 2 30))
      < 5 + STALE_TIMEOUT ->
      result (run WATCHDOG_INTERVAL (crashed 1 0 5 10)
                (Acquire 2 0 :: rounds 2 30)) 2 = None)
  /\ (5 + STALE_TIMEOUT + WATCHDOG_INTERVAL
      <= now (run WATCHDOG_INTERVAL (crashed 1 0 5 10)
                (Acquire 2 0 :: rounds 2 30)) ->
      exists T,
        result (run WATCHDOG_INTERVAL (crashed 1 0 5 10)
                  (Acquire 2 0 :: rounds 2 30)) 2
        = Some (true, T))
  /\ (exists T,
        result (run WATCHDOG_INTERVAL (crashed 1 0 5 10)
                  (Acquire 2 0
                   :: rounds 2 (5 + STALE_TIMEOUT + WATCHDOG_INTERVAL - 10))) 2
        = Some (true, T))
  /\ (Nat.divide WATCHDOG_INTERVAL (5 + STALE_TIMEOUT - 10) ->
      (forall b T,
         result (run WATCHDOG_INTERVAL (crashed 1 0 5 10)
                   (Acquire 2 0 :: rounds 2 30)) 2
         = Some (b, T) ->
         b = true /\ T = 5 + STALE_TIMEOUT)
      /\ (5 + STALE_TIMEOUT
          < now (run WATCHDOG_INTERVAL (crashed 1 0 5 10)
                   (Acquire 2 0 :: rounds 2 30)) ->
          result (run WATCHDOG_INTERVAL (crashed 1 0 5 10)
                    (Acquire 2 0 :: rounds 2 30)) 2
          = Some (true, 5 + STALE_TIMEOUT)))
  /\ (5 = 5 -> 10 = 10 -> Nat.divide WATCHDOG_INTERVAL 25 ->
      (now (run WATCHDOG_INTERVAL (crashed 1 0 5 10)
              (Acquire 2 0 :: rounds 2 30)) < 35 ->
       result (run WATCHDOG_INTERVAL (crashed 1 0 5 10)
                 (Acquire 2 0 :: rounds 2 30)) 2 = None)
      /\ (35 < now (run WATCHDOG_INTERVAL (crashed 1 0 5 10)
                      (Acquire 2 0 :: rounds 2 30)) ->
          result (run WATCHDOG_INTERVAL (crashed 1 0 5 10)
                    (Acquire 2 0 :: rounds 2 30)) 2 = Some (true, 35))).
Proof.
  apply (C2_crash_recovery_timing WATCHDOG_INTERVAL 5 10 2 0 (crashed 1 0 5 10)
           (rounds 2 30)).
  - unfold WATCHDOG_INTERVAL. lia.
  - apply crashed_crashed_holder; [unfold STALE_TIMEOUT; lia|lia].
  - reflexivity.
Defined.



End LockProofs.
